(** * Simple Quote Bot (main.py): a shallow embedding and its properties

    The bot keeps a list of quote records in one JSON file, reloads it on
    every command, and lets one configured owner append records.

    Modelling choices.
    - A Python [str] is a [string]: the bytes of its UTF-8 text.  Literals,
      concatenation, [in], [partition], [rpartition] and code-point order
      (which is byte order on UTF-8) are exact.  [str.strip] removes the
      UTF-8 forms of the characters [str.isspace] accepts.  [str.lower] is
      computed on ASCII text; on any other text it is Python's table-driven
      lowering, which the handlers take as an argument, [lower_unicode].
    - A value read from the file is a [value]: what [json.load] builds.  A
      float is kept as its literal, and [json.dump] of a value that holds
      one is not reproduced.  The [json] module is modelled as the
      bot uses it: [json.dump] with [ensure_ascii=False, indent=2], and
      [json.load] with its defaults.
    - A computation that can raise is an [outcome].  [Unmodelled] marks the
      few places where Python's result is not reproduced: [str()] and
      [sorted] on values that are not strings, [json.dump] of a float, and
      a JSON text that spells a lone surrogate, which a Python [str] can
      hold and UTF-8 text cannot.
      The interpreter's own limits (recursion depth, the length of an
      integer literal) are left out.
    - A handler is a function on a [world]: the backing file, the replies
      sent so far and the log.  The draw of [random.choice] is an argument
      of the handler that makes it. *)

From Stdlib Require Import List Bool Arith ZArith Lia Ascii String.
From Stdlib Require Import Sorting.Sorted DecimalString.
From Stdlib Require DecimalFacts DecimalPos.
Import ListNotations.
Local Open Scope list_scope.
Local Open Scope string_scope.

(** ** Outcomes of Python computations *)

Inductive exn : Type :=
| FileNotFoundError
| PermissionError
| UnicodeDecodeError
| JSONDecodeError
| RecursionError
| AttributeError
| KeyError
| TypeError
| IndexError
| ValueError.

Inductive outcome (A : Type) : Type :=
| Ok (a : A)
| Raise (e : exn)
| Unmodelled.

Arguments Ok {A} a.
Arguments Raise {A} e.
Arguments Unmodelled {A}.

Definition obind {A B : Type} (m : outcome A) (k : A -> outcome B) : outcome B :=
  match m with
  | Ok a => k a
  | Raise e => Raise e
  | Unmodelled => Unmodelled
  end.

Notation "x <~ m ;; k" := (obind m (fun x => k))
  (at level 61, m at next level, right associativity).

(** ** Python strings *)

Definition dquote : ascii := "034"%char.
Definition squote : ascii := "039"%char.
Definition newline : ascii := "010"%char.
Definition DQ : string := String dquote EmptyString.
Definition NL : string := String newline EmptyString.

Definition is_empty (s : string) : bool :=
  match s with EmptyString => true | String _ _ => false end.

Fixpoint lstrip_by (p : ascii -> bool) (s : string) : string :=
  match s with
  | EmptyString => EmptyString
  | String c r => if p c then lstrip_by p r else s
  end.

Fixpoint rstrip_by (p : ascii -> bool) (s : string) : string :=
  match s with
  | EmptyString => EmptyString
  | String c r =>
      match rstrip_by p r with
      | EmptyString => if p c then EmptyString else String c EmptyString
      | r' => String c r'
      end
  end.

Definition strip_by (p : ascii -> bool) (s : string) : string :=
  rstrip_by p (lstrip_by p s).

Fixpoint mem_char (c : ascii) (chars : string) : bool :=
  match chars with
  | EmptyString => false
  | String d r => Ascii.eqb c d || mem_char c r
  end.

(** [s.strip(chars)]: every leading and trailing character that occurs in
    [chars] is removed. *)
Definition strip_chars (chars s : string) : string :=
  strip_by (fun c => mem_char c chars) s.

(** [Some r] when [s = p ++ r]. *)
Fixpoint after_prefix (p s : string) : option string :=
  match p, s with
  | EmptyString, _ => Some s
  | String a p', String b s' => if Ascii.eqb a b then after_prefix p' s' else None
  | String _ _, EmptyString => None
  end.

(** [chr(n)] as UTF-8 text, for a code point that is not a surrogate. *)
Definition chr (n : N) : string :=
  (if n <? 128 then String (ascii_of_N n) EmptyString
   else if n <? 2048 then
     String (ascii_of_N (192 + n / 64))
       (String (ascii_of_N (128 + n mod 64)) EmptyString)
   else if n <? 65536 then
     String (ascii_of_N (224 + n / 4096))
       (String (ascii_of_N (128 + (n / 64) mod 64))
          (String (ascii_of_N (128 + n mod 64)) EmptyString))
   else
     String (ascii_of_N (240 + n / 262144))
       (String (ascii_of_N (128 + (n / 4096) mod 64))
          (String (ascii_of_N (128 + (n / 64) mod 64))
             (String (ascii_of_N (128 + n mod 64)) EmptyString))))%N.

(** A byte that continues a UTF-8 character. *)
Definition is_continuation (c : ascii) : bool :=
  let n := nat_of_ascii c in Nat.leb 128 n && Nat.ltb n 192.

Fixpoint continuation_only (s : string) : bool :=
  match s with
  | EmptyString => true
  | String c r => is_continuation c && continuation_only r
  end.

(** The code points [str.isspace] accepts: the ASCII controls 9..13 and
    28..31, space, next line, no-break space, the ogham space mark, the
    spaces U+2000..U+200A, the line and paragraph separators, the narrow
    no-break space, the medium mathematical space, the ideographic space. *)
Definition WHITESPACE : list N :=
  [9; 10; 11; 12; 13; 28; 29; 30; 31; 32; 133; 160; 5760;
   8192; 8193; 8194; 8195; 8196; 8197; 8198; 8199; 8200; 8201; 8202;
   8232; 8233; 8239; 8287; 12288]%N.

(** [s] without the first of [prefixes] it starts with. *)
Fixpoint drop_any (prefixes : list string) (s : string) : option string :=
  match prefixes with
  | [] => None
  | p :: more =>
      match after_prefix p s with
      | Some r => Some r
      | None => drop_any more s
      end
  end.

(** [s] without its first character, when that is whitespace. *)
Definition drop_space (s : string) : option string :=
  drop_any (map chr WHITESPACE) s.

Fixpoint lstrip_upto (n : nat) (s : string) : string :=
  match n with
  | 0 => s
  | S n' =>
      match drop_space s with
      | Some r => lstrip_upto n' r
      | None => s
      end
  end.

(** [s.lstrip()]: there are no more whitespace characters to drop than [s]
    has bytes. *)
Definition lstrip (s : string) : string := lstrip_upto (String.length s) s.

(** [s.rstrip()]: [s] up to the first position from which only whitespace
    follows. *)
Fixpoint rstrip (s : string) : string :=
  match s with
  | EmptyString => EmptyString
  | String c r => if is_empty (lstrip s) then EmptyString else String c (rstrip r)
  end.

(** [s.strip()] *)
Definition strip (s : string) : string := rstrip (lstrip s).

Definition is_upper (c : ascii) : bool :=
  let n := nat_of_ascii c in Nat.leb 65 n && Nat.leb n 90.

Definition lower_char (c : ascii) : ascii :=
  if is_upper c then ascii_of_nat (nat_of_ascii c + 32) else c.

(** [s.lower()] on ASCII text: the letters A..Z become a..z. *)
Fixpoint ascii_lower (s : string) : string :=
  match s with
  | EmptyString => EmptyString
  | String c r => String (lower_char c) (ascii_lower r)
  end.

(** [s.isascii()] *)
Fixpoint isascii (s : string) : bool :=
  match s with
  | EmptyString => true
  | String c r => Nat.ltb (nat_of_ascii c) 128 && isascii r
  end.

(** [s.lower()].  Text with a character beyond ASCII is lowered by
    Python's Unicode tables, which also look at the neighbours of a
    character: that function is the argument [lower_unicode]. *)
Definition lower (lower_unicode : string -> string) (s : string) : string :=
  if isascii s then ascii_lower s else lower_unicode s.

(** The first occurrence of [sep] in [s]: what stands before and after it. *)
Fixpoint find_first (sep s : string) : option (string * string) :=
  match after_prefix sep s with
  | Some b => Some (EmptyString, b)
  | None =>
      match s with
      | EmptyString => None
      | String c r =>
          match find_first sep r with
          | Some (a, b) => Some (String c a, b)
          | None => None
          end
      end
  end.

(** The last occurrence of [sep] in [s]. *)
Fixpoint find_last (sep s : string) : option (string * string) :=
  match s with
  | EmptyString =>
      match after_prefix sep s with
      | Some b => Some (EmptyString, b)
      | None => None
      end
  | String c r =>
      match find_last sep r with
      | Some (a, b) => Some (String c a, b)
      | None =>
          match after_prefix sep s with
          | Some b => Some (EmptyString, b)
          | None => None
          end
      end
  end.

(** [sub in s] *)
Definition contains (sub s : string) : bool :=
  match find_first sub s with Some _ => true | None => false end.

(** [s.partition(sep)] *)
Definition partition (sep s : string) : string * string * string :=
  match find_first sep s with
  | Some (a, b) => (a, sep, b)
  | None => (s, EmptyString, EmptyString)
  end.

(** [s.rpartition(sep)] *)
Definition rpartition (sep s : string) : string * string * string :=
  match find_last sep s with
  | Some (a, b) => (a, sep, b)
  | None => (EmptyString, EmptyString, s)
  end.

(** [sep.join(l)] *)
Fixpoint join (sep : string) (l : list string) : string :=
  match l with
  | [] => EmptyString
  | [x] => x
  | x :: r => x ++ sep ++ join sep r
  end.

(** ** Values built by [json.load] *)

Unset Elimination Schemes.
Inductive value : Type :=
| VNone
| VBool (b : bool)
| VInt (z : Z)
| VFloat (literal : string)
| VStr (s : string)
| VList (l : list value)
| VDict (d : list (string * value)).
Set Elimination Schemes.

(** Induction on values: the elements of a list and the fields of a dict
    come with the property. *)
Section ValueInduction.
Variable P : value -> Prop.
Hypothesis HNone : P VNone.
Hypothesis HBool : forall b, P (VBool b).
Hypothesis HInt : forall z, P (VInt z).
Hypothesis HFloat : forall literal, P (VFloat literal).
Hypothesis HStr : forall s, P (VStr s).
Hypothesis HList : forall l, Forall P l -> P (VList l).
Hypothesis HDict : forall d, Forall (fun kv => P (snd kv)) d -> P (VDict d).

Fixpoint value_ind (v : value) : P v :=
  match v with
  | VNone => HNone
  | VBool b => HBool b
  | VInt z => HInt z
  | VFloat literal => HFloat literal
  | VStr s => HStr s
  | VList l =>
      HList l
        ((fix all (l : list value) : Forall P l :=
            match l with
            | [] => Forall_nil P
            | x :: r => Forall_cons x (value_ind x) (all r)
            end) l)
  | VDict d =>
      HDict d
        ((fix all (d : list (string * value)) : Forall (fun kv => P (snd kv)) d :=
            match d with
            | [] => Forall_nil _
            | kv :: r => Forall_cons kv (value_ind (snd kv)) (all r)
            end) d)
  end.
End ValueInduction.

(** A [dict] keeps its keys in insertion order. *)
Definition dict : Type := list (string * value).

Fixpoint dict_lookup (k : string) (d : dict) : option value :=
  match d with
  | [] => None
  | (k', v) :: r => if String.eqb k k' then Some v else dict_lookup k r
  end.

(** [d[k] = v]: an existing key keeps its place. *)
Fixpoint dict_set (k : string) (v : value) (d : dict) : dict :=
  match d with
  | [] => [(k, v)]
  | (k', v') :: r =>
      if String.eqb k k' then (k', v) :: r else (k', v') :: dict_set k v r
  end.

(** [dict(pairs)] *)
Definition dict_of_pairs (pairs : list (string * value)) : dict :=
  fold_left (fun d kv => dict_set (fst kv) (snd kv) d) pairs [].

(** ** [json.dumps(v, ensure_ascii=False, indent=2)] *)

Definition hex_digit (n : nat) : ascii :=
  match n with
  | 0 => "0" | 1 => "1" | 2 => "2" | 3 => "3" | 4 => "4" | 5 => "5"
  | 6 => "6" | 7 => "7" | 8 => "8" | 9 => "9" | 10 => "a" | 11 => "b"
  | 12 => "c" | 13 => "d" | 14 => "e" | _ => "f"
  end%char.

(** The replacement of one character inside a JSON string: the quote, the
    backslash and the control characters are escaped, everything else is
    written as it is. *)
Definition escape_char (c : ascii) : string :=
  if Ascii.eqb c dquote then String "\" DQ
  else if Ascii.eqb c "\" then "\\"
  else if Ascii.eqb c "008" then "\b"
  else if Ascii.eqb c "012" then "\f"
  else if Ascii.eqb c "010" then "\n"
  else if Ascii.eqb c "013" then "\r"
  else if Ascii.eqb c "009" then "\t"
  else if Nat.ltb (nat_of_ascii c) 32
       then "\u00" ++ String (hex_digit (nat_of_ascii c / 16))
                        (String (hex_digit (nat_of_ascii c mod 16)) EmptyString)
       else String c EmptyString.

Fixpoint escape (s : string) : string :=
  match s with
  | EmptyString => EmptyString
  | String c r => escape_char c ++ escape r
  end.

Definition encode_str (s : string) : string := DQ ++ escape s ++ DQ.

Fixpoint spaces (n : nat) : string :=
  match n with 0 => EmptyString | S n' => String " " (spaces n') end.

(** A line break followed by the indentation of nesting level [level]. *)
Definition newline_indent (level : nat) : string := NL ++ spaces (2 * level).

Definition encode_int (z : Z) : string := NilEmpty.string_of_int (Z.to_int z).

(** The text of [v] at nesting level [level].  A float is written with the
    literal it is kept as. *)
Fixpoint encode (level : nat) (v : value) {struct v} : string :=
  match v with
  | VNone => "null"
  | VBool true => "true"
  | VBool false => "false"
  | VInt z => encode_int z
  | VFloat literal => literal
  | VStr s => encode_str s
  | VList [] => "[]"
  | VList l =>
      "[" ++ newline_indent (S level)
          ++ join ("," ++ newline_indent (S level)) (map (encode (S level)) l)
          ++ newline_indent level ++ "]"
  | VDict [] => "{}"
  | VDict d =>
      "{" ++ newline_indent (S level)
          ++ join ("," ++ newline_indent (S level))
               (map (fun kv => encode_str (fst kv) ++ ": " ++ encode (S level) (snd kv)) d)
          ++ newline_indent level ++ "}"
  end.

Definition json_dumps (v : value) : string := encode 0 v.

Fixpoint float_free (v : value) : bool :=
  match v with
  | VFloat _ => false
  | VList l => forallb float_free l
  | VDict d => forallb (fun kv => float_free (snd kv)) d
  | _ => true
  end.

(** The text [json.dump] writes for [v].  The digits Python chooses for a
    float are not reproduced: a value that holds one is left out. *)
Definition dumped (v : value) : outcome string :=
  if float_free v then Ok (json_dumps v) else Unmodelled.

(** ** [json.loads] *)

(** The result of scanning a prefix of a text.  [Beyond] marks a text the
    model does not follow Python on: a string with a lone surrogate, which
    Python reads and UTF-8 text cannot hold.  [NoFuel] is the scanner's
    recursion bound; [json_loads] starts it with enough fuel for the whole
    text. *)
Inductive parsed (A : Type) : Type :=
| Parsed (a : A) (rest : string)
| Malformed
| Beyond
| NoFuel.

Arguments Parsed {A} a rest.
Arguments Malformed {A}.
Arguments Beyond {A}.
Arguments NoFuel {A}.

(** JSON whitespace: space, tab, line feed, carriage return. *)
Definition is_ws (c : ascii) : bool :=
  match c with
  | " " | "009" | "010" | "013" => true
  | _ => false
  end%char.

Definition skip_ws (s : string) : string := lstrip_by is_ws s.

Definition hex_value (c : ascii) : option N :=
  let n := N_of_ascii c in
  if (N.leb 48 n && N.leb n 57)%bool then Some (n - 48)%N
  else if (N.leb 97 n && N.leb n 102)%bool then Some (n - 87)%N
  else if (N.leb 65 n && N.leb n 70)%bool then Some (n - 55)%N
  else None.

Definition hex4 (a b c d : ascii) : option N :=
  match hex_value a, hex_value b, hex_value c, hex_value d with
  | Some x, Some y, Some z, Some w => Some (((x * 16 + y) * 16 + z) * 16 + w)%N
  | _, _, _, _ => None
  end.

Definition is_high_surrogate (n : N) : bool := (N.leb 55296 n && N.leb n 56319)%bool.
Definition is_low_surrogate (n : N) : bool := (N.leb 56320 n && N.leb n 57343)%bool.
Definition join_surrogates (hi lo : N) : N :=
  (65536 + ((hi - 55296) * 1024 + (lo - 56320)))%N.

(** The character a backslash escape other than [\u] stands for. *)
Definition unescape (e : ascii) : option ascii :=
  if Ascii.eqb e dquote then Some dquote
  else if Ascii.eqb e "\" then Some "\"%char
  else if Ascii.eqb e "/" then Some "/"%char
  else if Ascii.eqb e "b" then Some "008"%char
  else if Ascii.eqb e "f" then Some "012"%char
  else if Ascii.eqb e "n" then Some "010"%char
  else if Ascii.eqb e "r" then Some "013"%char
  else if Ascii.eqb e "t" then Some "009"%char
  else None.

Definition prepend (p : string) (r : parsed string) : parsed string :=
  match r with
  | Parsed x rest => Parsed (p ++ x) rest
  | other => other
  end.

(** The scan of a string in which a lone surrogate was met: where Python
    would return a str, the model stops. *)
Definition tainted (r : parsed string) : parsed string :=
  match r with
  | Parsed _ _ => Beyond
  | other => other
  end.

(** The body of a JSON string, read from just after its opening quote: the
    decoded text and what follows the closing quote. *)
Fixpoint scanstring (s : string) : parsed string :=
  match s with
  | EmptyString => Malformed
  | String c r =>
      if Ascii.eqb c dquote then Parsed EmptyString r
      else if Ascii.eqb c "\" then
        match r with
        | EmptyString => Malformed
        | String e r1 =>
            if Ascii.eqb e "u" then
              match r1 with
              | String h1 (String h2 (String h3 (String h4 r2))) =>
                  match hex4 h1 h2 h3 h4 with
                  | None => Malformed
                  | Some uni =>
                      if is_high_surrogate uni then
                        match r2 with
                        | String b1 (String b2
                            (String g1 (String g2 (String g3 (String g4 r4))))) =>
                            if (Ascii.eqb b1 "\" && Ascii.eqb b2 "u")%bool then
                              match hex4 g1 g2 g3 g4 with
                              | None => Malformed
                              | Some uni2 =>
                                  if is_low_surrogate uni2
                                  then prepend (chr (join_surrogates uni uni2)) (scanstring r4)
                                  else tainted (scanstring r2)
                              end
                            else tainted (scanstring r2)
                        | _ => tainted (scanstring r2)
                        end
                      else if is_low_surrogate uni then tainted (scanstring r2)
                      else prepend (chr uni) (scanstring r2)
                  end
              | _ => Malformed
              end
            else
              match unescape e with
              | Some ch => prepend (String ch EmptyString) (scanstring r1)
              | None => Malformed
              end
        end
      else if Nat.ltb (nat_of_ascii c) 32 then Malformed
      else prepend (String c EmptyString) (scanstring r)
  end.

Definition is_digit (c : ascii) : bool :=
  let n := nat_of_ascii c in Nat.leb 48 n && Nat.leb n 57.

(** The longest run of digits at the start of [s], and the rest. *)
Fixpoint span_digits (s : string) : string * string :=
  match s with
  | EmptyString => (EmptyString, EmptyString)
  | String c r =>
      if is_digit c
      then let (ds, rest) := span_digits r in (String c ds, rest)
      else (EmptyString, s)
  end.

Fixpoint digits_value (acc : Z) (ds : string) : Z :=
  match ds with
  | EmptyString => acc
  | String c r => digits_value (10 * acc + Z.of_nat (nat_of_ascii c - 48))%Z r
  end.

(** The integer part: an optional minus sign, then a single zero or a run
    of digits that starts with a digit from 1 to 9. *)
Definition scan_integer (s : string) : option (bool * string * string) :=
  let (neg, s1) :=
    match s with
    | String c r => if Ascii.eqb c "-" then (true, r) else (false, s)
    | EmptyString => (false, s)
    end in
  match s1 with
  | EmptyString => None
  | String c r =>
      if Ascii.eqb c "0" then Some (neg, "0", r)
      else if is_digit c
           then let (ds, rest) := span_digits r in Some (neg, String c ds, rest)
           else None
  end.

(** The optional fraction: a dot and one digit or more.  Empty when there
    is none. *)
Definition scan_fraction (s : string) : string * string :=
  match s with
  | String c r =>
      if Ascii.eqb c "." then
        let (ds, rest) := span_digits r in
        if is_empty ds then (EmptyString, s) else (String c ds, rest)
      else (EmptyString, s)
  | EmptyString => (EmptyString, s)
  end.

(** The optional exponent: e or E, an optional sign, one digit or more. *)
Definition scan_exponent (s : string) : string * string :=
  match s with
  | String e r =>
      if (Ascii.eqb e "e" || Ascii.eqb e "E")%bool then
        let (sign, r1) :=
          match r with
          | String g r' =>
              if (Ascii.eqb g "+" || Ascii.eqb g "-")%bool
              then (String g EmptyString, r') else (EmptyString, r)
          | EmptyString => (EmptyString, r)
          end in
        let (ds, rest) := span_digits r1 in
        if is_empty ds then (EmptyString, s) else (String e (sign ++ ds), rest)
      else (EmptyString, s)
  | EmptyString => (EmptyString, s)
  end.

(** A number: an [int] when it has neither fraction nor exponent, a float
    otherwise. *)
Definition scan_number (s : string) : option (value * string) :=
  match scan_integer s with
  | None => None
  | Some (neg, ds, r) =>
      let (frac, r1) := scan_fraction r in
      let (exp, r2) := scan_exponent r1 in
      if (is_empty frac && is_empty exp)%bool
      then Some (VInt (if neg then - digits_value 0 ds else digits_value 0 ds)%Z, r2)
      else Some (VFloat ((if neg then "-" else EmptyString) ++ ds ++ frac ++ exp), r2)
  end.

(** The constants, then numbers. *)
Definition scan_atom (s : string) : parsed value :=
  match after_prefix "null" s with
  | Some rest => Parsed VNone rest
  | None =>
  match after_prefix "true" s with
  | Some rest => Parsed (VBool true) rest
  | None =>
  match after_prefix "false" s with
  | Some rest => Parsed (VBool false) rest
  | None =>
  match after_prefix "NaN" s with
  | Some rest => Parsed (VFloat "NaN") rest
  | None =>
  match after_prefix "Infinity" s with
  | Some rest => Parsed (VFloat "Infinity") rest
  | None =>
  match after_prefix "-Infinity" s with
  | Some rest => Parsed (VFloat "-Infinity") rest
  | None =>
  match scan_number s with
  | Some (v, rest) => Parsed v rest
  | None => Malformed
  end end end end end end end.

(** One JSON value at the start of [s]; the elements of an array after its
    opening bracket; the members of an object after the opening quote of a
    key. *)
Fixpoint scan_once (fuel : nat) (s : string) {struct fuel} : parsed value :=
  match fuel with
  | 0 => NoFuel
  | S fuel' =>
      match s with
      | EmptyString => Malformed
      | String c r =>
          if Ascii.eqb c dquote then
            match scanstring r with
            | Parsed str rest => Parsed (VStr str) rest
            | Malformed => Malformed
            | Beyond => Beyond
            | NoFuel => NoFuel
            end
          else if Ascii.eqb c "{" then
            match skip_ws r with
            | EmptyString => Malformed
            | String c1 r1 =>
                if Ascii.eqb c1 "}" then Parsed (VDict []) r1
                else if Ascii.eqb c1 dquote then
                  match scan_members fuel' r1 with
                  | Parsed pairs rest => Parsed (VDict (dict_of_pairs pairs)) rest
                  | Malformed => Malformed
                  | Beyond => Beyond
                  | NoFuel => NoFuel
                  end
                else Malformed
            end
          else if Ascii.eqb c "[" then
            match skip_ws r with
            | EmptyString => Malformed
            | String c1 r1 =>
                if Ascii.eqb c1 "]" then Parsed (VList []) r1
                else
                  match scan_elems fuel' (String c1 r1) with
                  | Parsed values rest => Parsed (VList values) rest
                  | Malformed => Malformed
                  | Beyond => Beyond
                  | NoFuel => NoFuel
                  end
            end
          else scan_atom s
      end
  end
with scan_elems (fuel : nat) (s : string) {struct fuel} : parsed (list value) :=
  match fuel with
  | 0 => NoFuel
  | S fuel' =>
      match scan_once fuel' s with
      | Parsed v rest =>
          match skip_ws rest with
          | EmptyString => Malformed
          | String c r =>
              if Ascii.eqb c "]" then Parsed [v] r
              else if Ascii.eqb c "," then
                match scan_elems fuel' (skip_ws r) with
                | Parsed vs rest' => Parsed (v :: vs) rest'
                | Malformed => Malformed
                | Beyond => Beyond
                | NoFuel => NoFuel
                end
              else Malformed
          end
      | Malformed => Malformed
      | Beyond => Beyond
      | NoFuel => NoFuel
      end
  end
with scan_members (fuel : nat) (s : string) {struct fuel}
  : parsed (list (string * value)) :=
  match fuel with
  | 0 => NoFuel
  | S fuel' =>
      match scanstring s with
      | Malformed => Malformed
      | Beyond => Beyond
      | NoFuel => NoFuel
      | Parsed key rest =>
          match skip_ws rest with
          | EmptyString => Malformed
          | String c r =>
              if Ascii.eqb c ":" then
                match scan_once fuel' (skip_ws r) with
                | Parsed v rest1 =>
                    match skip_ws rest1 with
                    | EmptyString => Malformed
                    | String c1 r1 =>
                        if Ascii.eqb c1 "}" then Parsed [(key, v)] r1
                        else if Ascii.eqb c1 "," then
                          match skip_ws r1 with
                          | EmptyString => Malformed
                          | String c2 r2 =>
                              if Ascii.eqb c2 dquote then
                                match scan_members fuel' r2 with
                                | Parsed ms rest2 => Parsed ((key, v) :: ms) rest2
                                | Malformed => Malformed
                                | Beyond => Beyond
                                | NoFuel => NoFuel
                                end
                              else Malformed
                          end
                        else Malformed
                    end
                | Malformed => Malformed
                | Beyond => Beyond
                | NoFuel => NoFuel
                end
              else Malformed
          end
      end
  end.

(** [json.loads(s)]: one value, with nothing but whitespace around it.  The
    fuel is more than any scan of [s] can use. *)
Definition json_loads (s : string) : outcome value :=
  match scan_once (2 * String.length s + 1) (skip_ws s) with
  | Parsed v rest =>
      if is_empty (skip_ws rest) then Ok v else Raise JSONDecodeError
  | Malformed => Raise JSONDecodeError
  | Beyond => Unmodelled
  | NoFuel => Raise RecursionError
  end.

(** ** Operations on loaded values *)

(** [v[k]] for a string key *)
Definition getitem (v : value) (k : string) : outcome value :=
  match v with
  | VDict d =>
      match dict_lookup k d with
      | Some x => Ok x
      | None => Raise KeyError
      end
  | _ => Raise TypeError
  end.

(** [v.get(k, default)]: only a dict has the method. *)
Definition get (v : value) (k : string) (default : value) : outcome value :=
  match v with
  | VDict d =>
      match dict_lookup k d with
      | Some x => Ok x
      | None => Ok default
      end
  | _ => Raise AttributeError
  end.

(** [v.lower()]: only a str has the method. *)
Definition lower_of (lower_unicode : string -> string) (v : value) : outcome string :=
  match v with
  | VStr s => Ok (lower lower_unicode s)
  | _ => Raise AttributeError
  end.

(** What an f-string writes for [v]: a str stands for itself. *)
Definition format_value (v : value) : outcome string :=
  match v with
  | VStr s => Ok s
  | _ => Unmodelled
  end.

(** Lists and dicts cannot be members of a set. *)
Definition hashable (v : value) : bool :=
  match v with
  | VList _ | VDict _ => false
  | _ => true
  end.

(** [random.choice(seq)], [rnd] being the number drawn. *)
Definition random_choice {A : Type} (rnd : nat) (seq : list A) : outcome A :=
  match nth_error seq (rnd mod List.length seq) with
  | Some x => Ok x
  | None => Raise IndexError
  end.

(** A list comprehension with a condition that can raise. *)
Fixpoint filter_o {A : Type} (p : A -> outcome bool) (l : list A) : outcome (list A) :=
  match l with
  | [] => Ok []
  | x :: r =>
      b <~ p x ;;
      rest <~ filter_o p r ;;
      Ok (if b : bool then x :: rest else rest)
  end.

Fixpoint insert (x : string) (l : list string) : list string :=
  match l with
  | [] => [x]
  | y :: r => if String.leb x y then x :: l else y :: insert x r
  end.

(** [sorted(l)] on strings: ascending in code-point order. *)
Fixpoint sorted (l : list string) : list string :=
  match l with
  | [] => []
  | x :: r => insert x (sorted r)
  end.

Fixpoint as_strings (vs : list value) : option (list string) :=
  match vs with
  | [] => Some []
  | VStr s :: r =>
      match as_strings r with
      | Some ss => Some (s :: ss)
      | None => None
      end
  | _ :: _ => None
  end.

(** [sorted(set(vs))] when every member is a str. *)
Definition sorted_set (vs : list value) : outcome (list string) :=
  match as_strings vs with
  | Some ss => Ok (sorted (nodup string_dec ss))
  | None => Unmodelled
  end.

(** ** The world of a handler *)

(** The backing file as [open] and [read] find it: [Missing], no such file
    ([FileNotFoundError]); [Locked], a file the process may not open (a
    [PermissionError], which is an [OSError] of another kind); [Garbled], a
    file whose bytes are not UTF-8 ([UnicodeDecodeError] on reading);
    [Text s], a file that holds the text [s]. *)
Inductive file_state : Type :=
| Missing
| Locked
| Garbled
| Text (s : string).

Definition QUOTES_FILE : string := "quotes.json".

Inductive ParseMode : Type := MARKDOWN.

Record reply : Type := { body : string; parse_mode : option ParseMode }.

Record world : Type := {
  disk : file_state;
  sent : list reply;
  logged : list string
}.

Record User : Type := { id : Z }.
Record Message : Type := { text : string }.
Record Update : Type := { effective_user : option User; message : Message }.
Record CallbackContext : Type := { args : list string }.

(** A handler step: it ends with a value or an exception, and leaves a
    world behind either way. *)
Definition M (A : Type) : Type := world -> outcome A * world.

Definition ret {A : Type} (a : A) : M A := fun w => (Ok a, w).

Definition bind {A B : Type} (m : M A) (k : A -> M B) : M B :=
  fun w =>
    match m w with
    | (Ok a, w') => k a w'
    | (Raise e, w') => (Raise e, w')
    | (Unmodelled, w') => (Unmodelled, w')
    end.

Definition lift {A : Type} (o : outcome A) : M A := fun w => (o, w).

Notation "x <- m ;; k" := (bind m (fun x => k))
  (at level 61, m at next level, right associativity).
Notation "m ;;; k" := (bind m (fun _ => k))
  (at level 61, right associativity).

(** [try: body except ...: handler]: [handlers e] is the clause that catches
    [e], if there is one. *)
Definition try_except {A : Type} (body : M A) (handlers : exn -> option (M A)) : M A :=
  fun w =>
    match body w with
    | (Raise e, w') =>
        match handlers e with
        | Some h => h w'
        | None => (Raise e, w')
        end
    | r => r
    end.

(** [update.message.reply_text(body, parse_mode=mode)] *)
Definition reply_text (body : string) (mode : option ParseMode) : M unit :=
  fun w =>
    (Ok tt,
     {| disk := disk w;
        sent := (sent w ++ [{| body := body; parse_mode := mode |}])%list;
        logged := logged w |}).

(** [logger.exception(msg)] *)
Definition log_exception (msg : string) : M unit :=
  fun w =>
    (Ok tt,
     {| disk := disk w; sent := sent w; logged := (logged w ++ [msg])%list |}).

(** [open(QUOTES_FILE, "r", encoding="utf-8")] and reading it whole. *)
Definition read_text : M string :=
  fun w =>
    match disk w with
    | Missing => (Raise FileNotFoundError, w)
    | Locked => (Raise PermissionError, w)
    | Garbled => (Raise UnicodeDecodeError, w)
    | Text s => (Ok s, w)
    end.

(** [open(QUOTES_FILE, "w", encoding="utf-8")] and writing [s]: the file is
    created or replaced.  A file that can be read and not written is not
    among the states: where a save follows a load, the theorems take its
    success as a hypothesis. *)
Definition write_text (s : string) : M unit :=
  fun w =>
    match disk w with
    | Locked => (Raise PermissionError, w)
    | _ => (Ok tt, {| disk := Text s; sent := sent w; logged := logged w |})
    end.

(** ** The helpers of main.py *)

Definition load_quotes : M (list value) :=
  try_except
    (text <- read_text ;;
     data <- lift (json_loads text) ;;
     match data with
     | VList l => ret l
     | _ => ret []
     end)
    (fun e =>
       match e with
       | FileNotFoundError => Some (ret [])
       | JSONDecodeError =>
           Some (log_exception "Invalid JSON in quotes file." ;;; ret [])
       | _ => None
       end).

Definition save_quotes (quotes : list value) : M unit :=
  text <- lift (dumped (VList quotes)) ;;
  write_text text.

Definition handler : Type := Update -> CallbackContext -> M unit.

Definition OWNER_NOT_CONFIGURED : string :=
  "Owner not configured on the bot. Contact the admin.".
Definition NOT_AUTHORIZED : string :=
  "❌ You are not authorized to use this command.".

(** The decorator.  [OWNER_ID] is the module's global: [None] when the
    environment names no owner. *)
Definition owner_only (OWNER_ID : option Z) (func : handler) : handler :=
  fun update context =>
    let user := effective_user update in
    match OWNER_ID with
    | None => reply_text OWNER_NOT_CONFIGURED None
    | Some owner =>
        if match user with
           | Some u => Z.eqb (id u) owner
           | None => false
           end
        then func update context
        else reply_text NOT_AUTHORIZED None
    end.

(** ** The commands *)

Definition _find_by_author (lower_unicode : string -> string)
    (author_query : string) (quotes : list value) : outcome (list value) :=
  let q := lower lower_unicode author_query in
  filter_o
    (fun item =>
       a <~ get item "author" (VStr EmptyString) ;;
       al <~ lower_of lower_unicode a ;;
       Ok (contains q al))
    quotes.

(** The reply for a chosen record: its text in curly quotes, a blank line,
    a dash and the author between asterisks. *)
Definition render_quote (chosen : value) : outcome string :=
  t <~ getitem chosen "text" ;;
  ts <~ format_value t ;;
  a <~ getitem chosen "author" ;;
  az <~ format_value a ;;
  Ok ("“" ++ ts ++ "”" ++ NL ++ NL ++ "— *" ++ az ++ "*").

Definition NO_QUOTES : string := "No quotes available yet.".
Definition NO_MATCH : string := "No quotes found for author matching: ".

Definition quote_cmd (lower_unicode : string -> string) (rnd : nat) : handler :=
  fun update context =>
    let args := args context in
    quotes <- load_quotes ;;
    match quotes with
    | [] => reply_text NO_QUOTES None
    | _ :: _ =>
        match args with
        | [] =>
            chosen <- lift (random_choice rnd quotes) ;;
            msg <- lift (render_quote chosen) ;;
            reply_text msg (Some MARKDOWN)
        | _ :: _ =>
            let author_query := strip (join " " args) in
            matches <- lift (_find_by_author lower_unicode author_query quotes) ;;
            match matches with
            | [] => reply_text (NO_MATCH ++ author_query) None
            | _ :: _ =>
                chosen <- lift (random_choice rnd matches) ;;
                msg <- lift (render_quote chosen) ;;
                reply_text msg (Some MARKDOWN)
            end
        end
    end.

(** The set comprehension of [list_authors]: each record's author, or
    ["Unknown"], is computed and added in turn. *)
Fixpoint author_names (quotes : list value) : outcome (list value) :=
  match quotes with
  | [] => Ok []
  | q :: r =>
      a <~ get q "author" (VStr "Unknown") ;;
      if hashable a
      then (rest <~ author_names r ;; Ok (a :: rest))
      else Raise TypeError
  end.

Definition NO_AUTHORS : string := "No authors found in the database.".

Definition list_authors : handler :=
  fun update context =>
    quotes <- load_quotes ;;
    names <- lift (author_names quotes) ;;
    authors <- lift (sorted_set names) ;;
    match authors with
    | [] => reply_text NO_AUTHORS None
    | _ :: _ =>
        reply_text
          ("Authors available:" ++ NL ++ NL
             ++ join NL (map (fun a => "- " ++ a) authors))
          None
    end.

Definition INVALID_FORMAT : string :=
  "Invalid format. Use:" ++ NL ++ "/addquote " ++ DQ ++ "quote text" ++ DQ ++ " - author".
Definition QUOTE_ADDED : string := "✅ Quote added successfully.".

(** The [try] block of [add_quote]: the quote text and the author, or the
    [ValueError] it raises. *)
Definition parse_addquote (full : string) : outcome (string * string) :=
  let payload := strip (snd (partition " " full)) in
  if is_empty payload then Raise ValueError
  else if negb (contains " - " payload) then Raise ValueError
  else
    let '(quote_part, _, author) := rpartition " - " payload in
    let quote_part := strip_chars (String squote EmptyString) (strip_chars DQ (strip quote_part)) in
    let author := strip author in
    if (is_empty quote_part || is_empty author)%bool then Raise ValueError
    else Ok (quote_part, author).

Definition quote_record (quote_part author : string) : value :=
  VDict [("text", VStr quote_part); ("author", VStr author)].

(** [add_quote] before decoration. *)
Definition add_quote_body : handler :=
  fun update context =>
    let full := text (message update) in
    match parse_addquote full with
    | Ok (quote_part, author) =>
        quotes <- load_quotes ;;
        let quotes := (quotes ++ [quote_record quote_part author])%list in
        save_quotes quotes ;;;
        reply_text QUOTE_ADDED None
    | _ => reply_text INVALID_FORMAT None
    end.

Definition add_quote (OWNER_ID : option Z) : handler :=
  owner_only OWNER_ID add_quote_body.

(** ** The vocabulary of the specification *)

Definition plain (s : string) : reply := {| body := s; parse_mode := None |}.
Definition markdown (s : string) : reply := {| body := s; parse_mode := Some MARKDOWN |}.

(** The world after exactly one more reply, and nothing else. *)
Definition replied (w : world) (r : reply) : world :=
  {| disk := disk w; sent := (sent w ++ [r])%list; logged := logged w |}.

(** The world after one more log entry, and nothing else. *)
Definition noted (w : world) (msg : string) : world :=
  {| disk := disk w; sent := sent w; logged := (logged w ++ [msg])%list |}.

(** The text and the author of a quote record: a dict whose ["text"] and
    ["author"] are both strings. *)
Definition quote_fields (v : value) : option (string * string) :=
  match v with
  | VDict d =>
      match dict_lookup "text" d, dict_lookup "author" d with
      | Some (VStr t), Some (VStr a) => Some (t, a)
      | _, _ => None
      end
  | _ => None
  end.

Definition is_quote (v : value) : Prop :=
  exists t a, quote_fields v = Some (t, a).

(** The author a record is listed under: its ["author"] when that is a
    string, ["Unknown"] when the field is missing. *)
Definition listed_author (v : value) : option string :=
  match v with
  | VDict d =>
      match dict_lookup "author" d with
      | Some (VStr a) => Some a
      | Some _ => None
      | None => Some "Unknown"
      end
  | _ => None
  end.

(** [q] occurs in [a] when case is ignored, as Python decides it: the
    lowered [q] occurs in the lowered [a]. *)
Definition ci_match (lower_unicode : string -> string) (q a : string) : Prop :=
  exists pre post,
    lower lower_unicode a = pre ++ lower lower_unicode q ++ post.

(** Two characters that are the same letter: equal, or an ASCII capital
    and its small letter. *)
Definition same_letter (c d : ascii) : Prop :=
  c = d
  \/ (is_upper c = true /\ nat_of_ascii d = nat_of_ascii c + 32)
  \/ (is_upper d = true /\ nat_of_ascii c = nat_of_ascii d + 32).

(** Two texts of the same length that are the same letter by letter. *)
Fixpoint same_letters (s t : string) : Prop :=
  match s, t with
  | EmptyString, EmptyString => True
  | String c s', String d t' => same_letter c d /\ same_letters s' t'
  | _, _ => False
  end.

(** On ASCII text: some stretch of [a] is [q] up to the case of its
    letters. *)
Definition ci_substring (q a : string) : Prop :=
  exists pre mid post, a = pre ++ mid ++ post /\ same_letters mid q.

(** A whitespace character, in its UTF-8 form. *)
Definition space_char (ws : string) : Prop := In ws (map chr WHITESPACE).

(** A text made of whitespace characters only. *)
Inductive blank : string -> Prop :=
| blank_nil : blank EmptyString
| blank_cons (ws r : string) : space_char ws -> blank r -> blank (ws ++ r).

(** [t] is [s] without its leading and trailing whitespace: what was cut
    at either end is whitespace, and [t] neither starts nor ends with a
    whitespace character. *)
Definition trimmed (s t : string) : Prop :=
  exists l r,
    s = l ++ t ++ r /\ blank l /\ blank r
    /\ (forall ws x, space_char ws -> t <> ws ++ x)
    /\ (forall ws x, space_char ws -> t <> x ++ ws).

(** A text made of the character [c] only. *)
Fixpoint only (c : ascii) (s : string) : Prop :=
  match s with
  | EmptyString => True
  | String d r => d = c /\ only c r
  end.

(** [t] is [s] without the characters [c] at its ends: what was cut is
    made of [c], and [t] neither starts nor ends with [c]. *)
Definition shorn (c : ascii) (s t : string) : Prop :=
  exists l r,
    s = l ++ t ++ r /\ only c l /\ only c r
    /\ (forall x, t <> String c x)
    /\ (forall x, t <> x ++ String c EmptyString).

(** The quote text [add_quote] keeps of the part before the separator: the
    part trimmed, then shorn of double quotes, then of single quotes. *)
Definition quote_text (before q : string) : Prop :=
  exists t1 t2, trimmed before t1 /\ shorn dquote t1 t2 /\ shorn squote t2 q.

(** [before ++ sep ++ after] splits [s] at the first occurrence of [sep]. *)
Definition first_split (sep s before after : string) : Prop :=
  s = before ++ sep ++ after /\
  forall b a, s = b ++ sep ++ a -> String.length before <= String.length b.

(** [p] is the payload of the message [full]: what follows its first space
    (nothing, when it has no space), trimmed. *)
Definition payload (full p : string) : Prop :=
  exists rest,
    ((exists cmd, first_split " " full cmd rest)
     \/ ((forall a b, full <> a ++ " " ++ b) /\ rest = EmptyString))
    /\ trimmed rest p.

(** What a quote reply says. *)
Definition quote_card (t a : string) : string :=
  "“" ++ t ++ "”" ++ NL ++ NL ++ "— *" ++ a ++ "*".

(** The payload of an addquote message: what follows the first space,
    trimmed. *)
Definition payload_of (full : string) : string :=
  strip (snd (partition " " full)).

Definition SEP : string := " - ".

(** [before ++ SEP ++ after] splits [s] at the last occurrence of [SEP]. *)
Definition last_split (s before after : string) : Prop :=
  s = before ++ SEP ++ after /\
  forall b a, s = b ++ SEP ++ a -> String.length b <= String.length before.

(** The message [full] is a well-formed addquote of [quote] by [author]:
    its payload splits at the last separator into a part that leaves the
    quote text [quote], which is not empty, and a part that is [author]
    once trimmed. *)
Definition well_formed (full quote author : string) : Prop :=
  exists p before after,
    payload full p /\ last_split p before after
    /\ quote_text before quote /\ trimmed after author
    /\ quote <> EmptyString.

(** What [add_quote] keeps of the part before the separator. *)
Definition unquote (s : string) : string :=
  strip_chars (String squote EmptyString) (strip_chars DQ (strip s)).

Definition is_quote_char (c : ascii) : bool :=
  (Ascii.eqb c dquote || Ascii.eqb c squote)%bool.

Definition drop_leading_quote (s : string) : string :=
  match s with
  | String c r => if is_quote_char c then r else s
  | EmptyString => EmptyString
  end.

Fixpoint drop_trailing_quote (s : string) : string :=
  match s with
  | EmptyString => EmptyString
  | String c EmptyString => if is_quote_char c then EmptyString else s
  | String c r => String c (drop_trailing_quote r)
  end.

(** The specification's reading of the quote text: trimmed, then ONE
    leading and ONE trailing quote character removed. *)
Definition unquote_once (s : string) : string :=
  drop_trailing_quote (drop_leading_quote (strip s)).

Fixpoint distinct (l : list string) : bool :=
  match l with
  | [] => true
  | x :: r => negb (existsb (String.eqb x) r) && distinct r
  end.

(** Values made of strings, constants, lists and dicts whose keys differ:
    what a quote record is made of. *)
Fixpoint textual (v : value) : bool :=
  match v with
  | VNone | VBool _ | VStr _ => true
  | VInt _ | VFloat _ => false
  | VList l => forallb textual l
  | VDict d => distinct (map fst d) && forallb (fun kv => textual (snd kv)) d
  end.

(** What can follow the text of a number: anything but a digit, a dot or
    an exponent mark. *)
Definition closes_number (rest : string) : bool :=
  match rest with
  | EmptyString => true
  | String c _ =>
      negb (is_digit c || Ascii.eqb c "." || Ascii.eqb c "e" || Ascii.eqb c "E")
  end.

Fixpoint keys_distinct (v : value) : bool :=
  match v with
  | VList l => forallb keys_distinct l
  | VDict d => distinct (map fst d) && forallb (fun kv => keys_distinct (snd kv)) d
  | _ => true
  end.

(** The values whose text reads back as the same value: no float, and no
    key twice in a dict. *)
Fixpoint dumpable (v : value) : bool :=
  match v with
  | VFloat _ => false
  | VList l => forallb dumpable l
  | VDict d => distinct (map fst d) && forallb (fun kv => dumpable (snd kv)) d
  | _ => true
  end.

(** A quote record as the store keeps it: a dict with a string text and a
    string author, no key twice, and no number in a further field should
    it have one. *)
Definition stored_quote (v : value) : Prop :=
  is_quote v /\ textual v = true.

(** ** The rest of main.py *)

Definition WELCOME : string :=
  "⚡ Welcome to the Simple Quote Bot!" ++ NL ++ NL
    ++ "Use /help to see available commands.".

Definition start : handler :=
  fun update context => reply_text WELCOME None.

Definition USAGE : string :=
  "/quote - get a random quote" ++ NL
    ++ "/quote <author> - get a random quote by author (case-insensitive, partial match)" ++ NL
    ++ "/listauthors - list authors available" ++ NL
    ++ "/addquote " ++ DQ ++ "quote text" ++ DQ ++ " - author  (owner only)" ++ NL ++ NL
    ++ "Example: /quote Lao Tzu" ++ NL
    ++ "Example add: /addquote " ++ DQ ++ "Dream big and dare to fail" ++ DQ
    ++ " - Norman Vaughan".

Definition help_cmd : handler :=
  fun update context => reply_text USAGE None.

(** The command handlers [main] registers, by command name; [rnd] is the
    draw of the update at hand. *)
Definition commands (OWNER_ID : option Z) (lower_unicode : string -> string)
    (rnd : nat) : list (string * handler) :=
  [("start", start);
   ("help", help_cmd);
   ("quote", quote_cmd lower_unicode rnd);
   ("listauthors", list_authors);
   ("addquote", add_quote OWNER_ID)].

(** ** Further vocabulary *)

(** A run from [w] that sends one reply when it ends well and none when it
    ends with an exception. *)
Definition one_reply_or_none (w : world) (r : outcome unit * world) : Prop :=
  match fst r with
  | Ok _ => exists x, sent (snd r) = (sent w ++ [x])%list
  | Raise _ => sent (snd r) = sent w
  | Unmodelled => True
  end.

(** ** Sample inputs *)

Definition fresh (d : file_state) : world :=
  {| disk := d; sent := []; logged := [] |}.

Definition from_user (uid : Z) (t : string) : Update :=
  {| effective_user := Some {| id := uid |}; message := {| text := t |} |}.

Definition anonymous (t : string) : Update :=
  {| effective_user := None; message := {| text := t |} |}.

Definition with_args (a : list string) : CallbackContext := {| args := a |}.

(** A world whose backing file holds [store], as [save_quotes] writes it. *)
Definition holding (store : list value) : world :=
  fresh (Text (json_dumps (VList store))).

Definition quotes_sample : list value :=
  [VDict [("text", VStr "T1"); ("author", VStr "Lao Tzu")];
   VDict [("text", VStr "T2"); ("author", VStr "Confucius")]].


Definition authors_sample : list value :=
  [VDict [("author", VStr "B")]; VDict [("author", VStr "A")];
   VDict [("author", VStr "A")]; VDict [("text", VStr "t")]].

(** ** Properties *)

Ltac run := cbv [bind ret lift try_except reply_text log_exception read_text
                 write_text replied noted plain markdown] in *.

(** *** The authorization guard *)

(** C3.  The guard around addquote: with no owner configured it sends the
    owner-not-configured reply and nothing else happens; with an owner
    configured, the owner's call is the wrapped handler's call, and anyone
    else gets the not-authorized reply and nothing else happens.  In both
    denials the result does not depend on the wrapped handler, and the two
    replies differ. *)
Theorem owner_only_guard (func : handler) (update : Update)
    (context : CallbackContext) (w : world) :
  owner_only None func update context w
    = (Ok tt, replied w (plain "Owner not configured on the bot. Contact the admin."))
  /\ (forall owner u,
        effective_user update = Some u -> id u = owner ->
        owner_only (Some owner) func update context w = func update context w)
  /\ (forall owner u,
        effective_user update = Some u -> id u <> owner ->
        owner_only (Some owner) func update context w
          = (Ok tt, replied w (plain "❌ You are not authorized to use this command.")))
  /\ OWNER_NOT_CONFIGURED <> NOT_AUTHORIZED.
Proof.
  repeat split.
  - intros owner u Hu Hid. unfold owner_only. rewrite Hu.
    apply Z.eqb_eq in Hid. now rewrite Hid.
  - intros owner u Hu Hid. unfold owner_only. rewrite Hu.
    apply Z.eqb_neq in Hid. now rewrite Hid.
  - discriminate.
Qed.

(** C9.  With an owner configured, a message that carries no caller at all
    is treated like a stranger's: the not-authorized reply, and the wrapped
    handler has no part in the result. *)
Theorem owner_only_anonymous (owner : Z) (func : handler) (update : Update)
    (context : CallbackContext) (w : world) :
  effective_user update = None ->
  owner_only (Some owner) func update context w
    = (Ok tt, replied w (plain "❌ You are not authorized to use this command.")).
Proof.
  intros Hu. unfold owner_only. now rewrite Hu.
Qed.

(** The guard at work: owner 7 reaches the handler, user 8 and a
    deployment without owner are turned away. *)
Lemma owner_only_guard_witness :
  owner_only None add_quote_body (from_user 7 "/addquote x") (with_args []) (fresh Missing)
    = (Ok tt, replied (fresh Missing) (plain OWNER_NOT_CONFIGURED))
  /\ owner_only (Some 7%Z) add_quote_body (from_user 7 "/addquote x") (with_args []) (fresh Missing)
    = add_quote_body (from_user 7 "/addquote x") (with_args []) (fresh Missing)
  /\ owner_only (Some 7%Z) add_quote_body (from_user 8 "/addquote x") (with_args []) (fresh Missing)
    = (Ok tt, replied (fresh Missing) (plain NOT_AUTHORIZED)).
Proof.
  split; [|split].
  - apply (owner_only_guard add_quote_body (from_user 7 "/addquote x") (with_args []) (fresh Missing)).
  - apply (owner_only_guard add_quote_body (from_user 7 "/addquote x") (with_args []) (fresh Missing))
      with (u := {| id := 7 |}); reflexivity.
  - apply (owner_only_guard add_quote_body (from_user 8 "/addquote x") (with_args []) (fresh Missing))
      with (u := {| id := 8 |}); [reflexivity | discriminate].
Defined.

Lemma owner_only_anonymous_witness :
  owner_only (Some 7%Z) add_quote_body (anonymous "/addquote x - y") (with_args []) (fresh Missing)
    = (Ok tt, replied (fresh Missing) (plain NOT_AUTHORIZED)).
Proof.
  apply (owner_only_anonymous 7 add_quote_body (anonymous "/addquote x - y")).
  reflexivity.
Defined.

(** *** Loading the store *)

(** C5, as the code has it.  [load_quotes] gives the empty list, without
    raising, when the file is absent, when its text is not JSON (one log
    entry is written), and when its text is a JSON value that is not an
    array.  A file that cannot be opened, or whose bytes are not UTF-8, is
    not recovered: the exception reaches the caller. *)
Theorem load_quotes_recovery (w : world) :
  (disk w = Missing -> load_quotes w = (Ok [], w))
  /\ (forall s, disk w = Text s -> json_loads s = Raise JSONDecodeError ->
        load_quotes w = (Ok [], noted w "Invalid JSON in quotes file."))
  /\ (forall s v, disk w = Text s -> json_loads s = Ok v ->
        (forall l, v <> VList l) -> load_quotes w = (Ok [], w))
  /\ (disk w = Locked -> load_quotes w = (Raise PermissionError, w))
  /\ (disk w = Garbled -> load_quotes w = (Raise UnicodeDecodeError, w)).
Proof.
  destruct w as [d out lg]; simpl.
  repeat apply conj.
  - intros ->. reflexivity.
  - intros s -> J. unfold load_quotes. run. simpl. now rewrite J.
  - intros s v -> J N. unfold load_quotes. run. simpl. rewrite J.
    destruct v; try reflexivity. now elim (N l).
  - intros ->. reflexivity.
  - intros ->. reflexivity.
Qed.

Lemma load_quotes_recovery_witness :
  load_quotes (fresh Missing) = (Ok [], fresh Missing)
  /\ load_quotes (fresh (Text "{oops"))
       = (Ok [], noted (fresh (Text "{oops")) "Invalid JSON in quotes file.")
  /\ load_quotes (fresh (Text "{}")) = (Ok [], fresh (Text "{}"))
  /\ load_quotes (fresh Locked) = (Raise PermissionError, fresh Locked)
  /\ load_quotes (fresh Garbled) = (Raise UnicodeDecodeError, fresh Garbled).
Proof.
  repeat apply conj.
  - apply (load_quotes_recovery (fresh Missing)). reflexivity.
  - apply (load_quotes_recovery (fresh (Text "{oops"))) with (s := "{oops");
      reflexivity.
  - apply (load_quotes_recovery (fresh (Text "{}"))) with (s := "{}") (v := VDict []);
      [reflexivity | reflexivity | discriminate].
  - apply (load_quotes_recovery (fresh Locked)). reflexivity.
  - apply (load_quotes_recovery (fresh Garbled)). reflexivity.
Defined.

(** C5 as stated fails: a backing file the process may not open makes
    [load_quotes] raise, and no empty list is returned. *)
Lemma load_quotes_raises_on_locked_file :
  load_quotes (fresh Locked) = (Raise PermissionError, fresh Locked)
  /\ fst (load_quotes (fresh Locked)) <> Ok [].
Proof.
  split; [reflexivity | discriminate].
Qed.

(** C10.  No record is validated: when the text of the file is a JSON
    array, [load_quotes] returns that array as it was read, whatever its
    elements are, and changes nothing. *)
Theorem load_quotes_returns_array (w : world) (s : string) (l : list value) :
  disk w = Text s -> json_loads s = Ok (VList l) ->
  load_quotes w = (Ok l, w).
Proof.
  destruct w as [d out lg]; simpl. intros H J; subst.
  unfold load_quotes. run. simpl. now rewrite J.
Qed.

Lemma load_quotes_returns_array_witness :
  load_quotes (fresh (Text "[1, null, {}, [true]]"))
    = (Ok [VInt 1; VNone; VDict []; VList [VBool true]],
       fresh (Text "[1, null, {}, [true]]")).
Proof.
  apply (load_quotes_returns_array (fresh (Text "[1, null, {}, [true]]"))
           "[1, null, {}, [true]]"); reflexivity.
Defined.

(** *** Python strings *)

Lemma is_empty_false (s : string) : is_empty s = false <-> s <> EmptyString.
Proof. destruct s; simpl; split; congruence. Qed.

Lemma append_nil_r (s : string) : s ++ EmptyString = s.
Proof. induction s; simpl; congruence. Qed.

Lemma append_assoc (a b c : string) : (a ++ b) ++ c = a ++ (b ++ c).
Proof. induction a; simpl; congruence. Qed.

Lemma append_length (a b : string) :
  String.length (a ++ b) = String.length a + String.length b.
Proof. induction a; simpl; congruence. Qed.

Lemma append_inj_length (a a' b b' : string) :
  a ++ b = a' ++ b' -> String.length a = String.length a' -> a = a' /\ b = b'.
Proof.
  revert a'; induction a as [|c a IH]; intros [|c' a'] E L; simpl in *;
    try discriminate.
  - now split.
  - injection E as -> E. injection L as L.
    destruct (IH a' E L) as [-> ->]. now split.
Qed.

Lemma after_prefix_spec (p s r : string) :
  after_prefix p s = Some r <-> s = p ++ r.
Proof.
  revert s; induction p as [|a p IH]; intros s; simpl.
  - split; [intros [= ->] | intros ->]; reflexivity.
  - destruct s as [|b s]; [split; discriminate|].
    destruct (Ascii.eqb_spec a b) as [->|N].
    + rewrite IH. split; [intros -> | intros [= ->]]; reflexivity.
    + split; [discriminate | intros [= E _]; now elim N].
Qed.

Lemma after_prefix_app (p r : string) : after_prefix p (p ++ r) = Some r.
Proof. now apply after_prefix_spec. Qed.

Lemma find_first_sound (sep s a b : string) :
  find_first sep s = Some (a, b) -> s = a ++ sep ++ b.
Proof.
  revert a b; induction s as [|c s IH]; intros a b; simpl.
  - destruct (after_prefix sep EmptyString) eqn:E; [|discriminate].
    intros [= <- <-]. now apply after_prefix_spec in E.
  - destruct (after_prefix sep (String c s)) eqn:E.
    + intros [= <- <-]. now apply after_prefix_spec in E.
    + destruct (find_first sep s) as [[a' b']|] eqn:F; [|discriminate].
      intros [= <- <-]. simpl. f_equal. now apply IH.
Qed.

Lemma find_first_complete (sep a b : string) :
  find_first sep (a ++ sep ++ b) <> None.
Proof.
  induction a as [|c a IH]; simpl.
  - destruct (sep ++ b) eqn:E; simpl; rewrite <- E, after_prefix_app; discriminate.
  - destruct (after_prefix sep (String c (a ++ sep ++ b))); [discriminate|].
    destruct (find_first sep (a ++ sep ++ b)) as [[? ?]|]; [discriminate|].
    now elim IH.
Qed.

(** [sub in s] holds exactly when [sub] occurs in [s]. *)
Lemma contains_spec (sub s : string) :
  contains sub s = true <-> exists a b, s = a ++ sub ++ b.
Proof.
  unfold contains. split.
  - destruct (find_first sub s) as [[a b]|] eqn:F; [|discriminate].
    intros _. exists a, b. now apply find_first_sound.
  - intros (a & b & ->).
    pose proof (find_first_complete sub a b) as N.
    now destruct (find_first sub (a ++ sub ++ b)).
Qed.

Lemma contains_false (sub s : string) :
  contains sub s = false <-> forall a b, s <> a ++ sub ++ b.
Proof.
  split.
  - intros C a b E. assert (contains sub s = true) as T
      by (apply contains_spec; now exists a, b). congruence.
  - intros N. destruct (contains sub s) eqn:C; [|reflexivity].
    apply contains_spec in C as (a & b & E). now elim (N a b).
Qed.

Lemma find_last_sound (sep s a b : string) :
  find_last sep s = Some (a, b) -> s = a ++ sep ++ b.
Proof.
  revert a b; induction s as [|c s IH]; intros a b; simpl.
  - destruct (after_prefix sep EmptyString) eqn:E; [|discriminate].
    intros [= <- <-]. now apply after_prefix_spec in E.
  - destruct (find_last sep s) as [[a' b']|] eqn:F.
    + intros [= <- <-]. simpl. f_equal. now apply IH.
    + destruct (after_prefix sep (String c s)) eqn:E; [|discriminate].
      intros [= <- <-]. now apply after_prefix_spec in E.
Qed.

Lemma find_last_none (sep s : string) :
  find_last sep s = None -> forall a b, s <> a ++ sep ++ b.
Proof.
  induction s as [|c s IH]; simpl.
  - destruct (after_prefix sep EmptyString) eqn:E; [discriminate|].
    intros _ [|? a] b H; simpl in H; [|discriminate].
    apply after_prefix_spec in H. congruence.
  - destruct (find_last sep s) as [[? ?]|] eqn:F; [discriminate|].
    destruct (after_prefix sep (String c s)) eqn:E; [discriminate|].
    intros _ [|? a] b H; simpl in H.
    + apply after_prefix_spec in H. congruence.
    + injection H as _ H. now apply (IH eq_refl a b).
Qed.

Lemma find_last_maximal (sep s a b : string) :
  find_last sep s = Some (a, b) ->
  forall a' b', s = a' ++ sep ++ b' -> String.length a' <= String.length a.
Proof.
  revert a b; induction s as [|c s IH]; intros a b; simpl.
  - intros _ [|? a'] b' H; simpl in *; [lia | discriminate].
  - destruct (find_last sep s) as [[a0 b0]|] eqn:F.
    + intros [= <- <-] [|? a'] b' H; simpl in *; [lia|].
      injection H as _ H. specialize (IH a0 b0 eq_refl a' b' H). lia.
    + intros _ [|? a'] b' H; simpl in *; [lia|].
      injection H as _ H. now elim (find_last_none sep s F a' b').
Qed.

(** [find_last] finds the split at the last occurrence, and only that. *)
Lemma find_last_spec (s before after : string) :
  find_last SEP s = Some (before, after) <-> last_split s before after.
Proof.
  split.
  - intros F. split; [now apply find_last_sound|].
    intros b a. now apply (find_last_maximal SEP s before after).
  - intros [E Max].
    destruct (find_last SEP s) as [[a b]|] eqn:F.
    + pose proof (find_last_sound _ _ _ _ F) as E'.
      pose proof (find_last_maximal _ _ _ _ F before after E) as L1.
      pose proof (Max a b E') as L2.
      assert (before = a /\ SEP ++ after = SEP ++ b) as [-> E2].
      { apply append_inj_length; [congruence | lia]. }
      apply append_inj_length in E2 as [_ ->]; reflexivity.
    + now elim (find_last_none SEP s F before after).
Qed.

(** *** Whitespace and trimming *)

Lemma drop_any_sound (l : list string) (s r : string) :
  drop_any l s = Some r -> exists p, In p l /\ s = p ++ r.
Proof.
  induction l as [|p l IH]; simpl; [discriminate|].
  destruct (after_prefix p s) as [x|] eqn:E.
  - intros [= ->]. exists p. split; [now left | now apply after_prefix_spec].
  - intros H. destruct (IH H) as (q & I & ->). exists q. split; [now right | reflexivity].
Qed.

Lemma drop_any_none (l : list string) (s : string) :
  drop_any l s = None -> forall p x, In p l -> s <> p ++ x.
Proof.
  induction l as [|p l IH]; simpl; [intros _ ? ? []|].
  destruct (after_prefix p s) as [x|] eqn:E; [discriminate|].
  intros H q x [<- | I].
  - intros ->. now rewrite after_prefix_app in E.
  - now apply IH.
Qed.

Lemma drop_space_sound (s r : string) :
  drop_space s = Some r -> exists ws, space_char ws /\ s = ws ++ r.
Proof. apply drop_any_sound. Qed.

Lemma drop_space_none (s : string) :
  drop_space s = None <-> forall ws x, space_char ws -> s <> ws ++ x.
Proof.
  split; [apply drop_any_none|].
  intros N. destruct (drop_space s) as [r|] eqn:E; [|reflexivity].
  apply drop_space_sound in E as (ws & I & ->). now elim (N ws r).
Qed.

(** A whitespace character starts with a byte that continues no character,
    and goes on with continuation bytes only. *)
Lemma space_char_shape (ws : string) :
  space_char ws ->
  exists c r, ws = String c r /\ is_continuation c = false /\ continuation_only r = true.
Proof.
  unfold space_char. intros I. vm_compute in I.
  repeat (destruct I as [<- | I]; [eexists; eexists; repeat split; reflexivity|]).
  destruct I.
Qed.

(** No whitespace character starts another one. *)
Lemma drop_space_head (ws r : string) :
  space_char ws -> drop_space (ws ++ r) = Some r.
Proof.
  unfold space_char. intros I. vm_compute in I.
  repeat (destruct I as [<- | I]; [vm_compute; reflexivity|]).
  destruct I.
Qed.

Lemma space_char_length (ws : string) : space_char ws -> 0 < String.length ws.
Proof. intros I. destruct (space_char_shape ws I) as (c & r & -> & _). simpl. lia. Qed.

Lemma blank_space (ws : string) : space_char ws -> blank ws.
Proof. intros I. rewrite <- (append_nil_r ws). apply blank_cons; [assumption | constructor]. Qed.

Lemma blank_app (a b : string) : blank a -> blank b -> blank (a ++ b).
Proof.
  induction 1 as [|ws r I B IH]; intros Bb; simpl; [assumption|].
  rewrite append_assoc. apply blank_cons; auto.
Qed.

Lemma lstrip_upto_fixed (n : nat) (s : string) :
  drop_space s = None -> lstrip_upto n s = s.
Proof. intros E. destruct n; simpl; [reflexivity | now rewrite E]. Qed.

Lemma lstrip_upto_spec (n : nat) (s : string) :
  String.length s <= n ->
  exists l, blank l /\ s = l ++ lstrip_upto n s /\ drop_space (lstrip_upto n s) = None.
Proof.
  revert s; induction n as [|n IH]; intros s L.
  - destruct s; [|simpl in L; lia]. exists EmptyString.
    split; [constructor | split; reflexivity].
  - simpl. destruct (drop_space s) as [r|] eqn:E.
    + destruct (drop_space_sound _ _ E) as (ws & I & ->).
      pose proof (space_char_length ws I) as P.
      rewrite append_length in L.
      destruct (IH r ltac:(lia)) as (l & B & Er & N).
      exists (ws ++ l). split; [now apply blank_cons | split; [|assumption]].
      rewrite append_assoc. now rewrite <- Er.
    + exists EmptyString. split; [constructor | split; [reflexivity | assumption]].
Qed.

Lemma lstrip_upto_blank (l t : string) :
  blank l -> drop_space t = None ->
  forall n, String.length (l ++ t) <= n -> lstrip_upto n (l ++ t) = t.
Proof.
  intros B N. induction B as [|ws r I B IH]; intros n L; simpl.
  - now apply lstrip_upto_fixed.
  - pose proof (space_char_length ws I) as P.
    rewrite append_assoc in *. rewrite append_length in L.
    destruct n as [|n]; [lia|]. simpl.
    rewrite (drop_space_head _ _ I). apply IH. lia.
Qed.

(** [lstrip] cuts whitespace, and leaves a text that starts with none. *)
Lemma lstrip_spec (s : string) :
  exists l, blank l /\ s = l ++ lstrip s /\ drop_space (lstrip s) = None.
Proof. apply lstrip_upto_spec. lia. Qed.

Lemma lstrip_unique (l t : string) :
  blank l -> drop_space t = None -> lstrip (l ++ t) = t.
Proof. intros B N. now apply lstrip_upto_blank. Qed.

Lemma lstrip_fixed (s : string) : drop_space s = None -> lstrip s = s.
Proof. apply lstrip_upto_fixed. Qed.

Lemma lstrip_blank_app (l t : string) : blank l -> lstrip (l ++ t) = lstrip t.
Proof.
  intros B. destruct (lstrip_spec t) as (l2 & B2 & E & N).
  rewrite E at 1. rewrite <- append_assoc.
  apply lstrip_unique; [now apply blank_app | assumption].
Qed.

Lemma lstrip_blank (s : string) : lstrip s = EmptyString <-> blank s.
Proof.
  split.
  - intros E. destruct (lstrip_spec s) as (l & B & Es & _).
    rewrite E, append_nil_r in Es. now subst.
  - intros B. rewrite <- (append_nil_r s). now apply lstrip_unique.
Qed.

Lemma blank_inv (s : string) :
  blank s -> s = EmptyString \/ exists ws r, space_char ws /\ blank r /\ s = ws ++ r.
Proof. destruct 1 as [|ws r I B]; [now left | right; now exists ws, r]. Qed.

Lemma app_split (a b c d : string) :
  a ++ b = c ++ d ->
  (exists y, a = c ++ y /\ d = y ++ b)
  \/ (exists e y, c = a ++ String e y /\ b = String e y ++ d).
Proof.
  revert c; induction a as [|x a IH]; intros c E; simpl in E.
  - destruct c as [|e y].
    + left. exists EmptyString. simpl in *. now split.
    + right. exists e, y. now split.
  - destruct c as [|e y]; simpl in E.
    + left. exists (String x a). now split.
    + injection E as -> E. destruct (IH y E) as [(z & -> & ->) | (e' & z & -> & ->)].
      * left. now exists z.
      * right. now exists e', z.
Qed.

Lemma continuation_only_app (a b : string) :
  continuation_only (a ++ b) = true -> continuation_only b = true.
Proof.
  induction a as [|c a IH]; simpl; [trivial|].
  intros H. apply andb_prop in H as [_ H]. auto.
Qed.

(** Whitespace never starts in the middle of a whitespace character. *)
Lemma blank_no_continuation (e : ascii) (y : string) :
  blank (String e y) -> is_continuation e = false.
Proof.
  intros B. destruct (blank_inv _ B) as [E | (ws & r & I & _ & E)]; [discriminate|].
  destruct (space_char_shape ws I) as (c & u & -> & Hc & _).
  simpl in E. now injection E as -> _.
Qed.

(** When a text that is not empty and whitespace after it start with a
    whitespace character, the whole character lies in the text. *)
Lemma space_char_within (t r ws x : string) :
  t <> EmptyString -> blank r -> space_char ws -> t ++ r = ws ++ x ->
  exists y, t = ws ++ y.
Proof.
  intros Ne B I E.
  destruct (app_split _ _ _ _ E) as [(y & -> & _) | (e & y & Ews & Er)];
    [now exists y|].
  exfalso.
  destruct (space_char_shape ws I) as (c & u & -> & _ & Hu).
  destruct t as [|d t]; [now elim Ne|]. simpl in Ews. injection Ews as _ ->.
  apply continuation_only_app in Hu. simpl in Hu. apply andb_prop in Hu as [He _].
  rewrite Er in B. simpl in B. apply blank_no_continuation in B. congruence.
Qed.

Lemma drop_space_app (t r : string) :
  t <> EmptyString -> drop_space t = None -> blank r -> drop_space (t ++ r) = None.
Proof.
  intros Ne N B. apply drop_space_none. intros ws x I E.
  destruct (space_char_within _ _ _ _ Ne B I E) as (y & ->).
  rewrite drop_space_none in N. now apply (N ws y).
Qed.

(** Whitespace followed by whitespace: the text before is whitespace by
    itself. *)
Lemma blank_app_inv (a r : string) : blank (a ++ r) -> blank r -> blank a.
Proof.
  remember (String.length a) as n eqn:L. revert a L.
  induction n as [n IH] using lt_wf_ind. intros a L Bar Br.
  destruct a as [|c a]; [constructor|].
  destruct (blank_inv _ Bar) as [E | (ws & x & I & Bx & E)]; [simpl in E; discriminate|].
  assert (String c a <> EmptyString) as Ne by discriminate.
  destruct (space_char_within _ _ _ _ Ne Br I E) as (y & Ea).
  rewrite Ea in *. rewrite append_assoc in E.
  apply append_inj_length in E as [_ E]; [|reflexivity].
  apply blank_cons; [assumption|].
  pose proof (space_char_length ws I) as P.
  apply (IH (String.length y)); [rewrite L, append_length; lia | reflexivity | | assumption].
  now rewrite E.
Qed.

Lemma blank_last (s : string) :
  blank s -> s <> EmptyString -> exists x ws, space_char ws /\ s = x ++ ws.
Proof.
  induction 1 as [|ws r I B IH]; intros Ne; [now elim Ne|].
  destruct r as [|c r].
  - exists EmptyString, ws. now rewrite append_nil_r.
  - destruct (IH ltac:(discriminate)) as (x & ws' & I' & ->).
    exists (ws ++ x), ws'. split; [assumption | now rewrite append_assoc].
Qed.

(** [rstrip] cuts whitespace, and leaves a text that ends with none. *)
Lemma rstrip_spec (s : string) :
  exists r, blank r /\ s = rstrip s ++ r
            /\ forall ws x, space_char ws -> rstrip s <> x ++ ws.
Proof.
  induction s as [|c s (r & B & E & N)].
  - exists EmptyString. repeat split; [constructor|].
    intros ws x I H. apply space_char_length in I.
    apply (f_equal String.length) in H. rewrite append_length in H. simpl in H. lia.
  - cbn [rstrip]. destruct (is_empty (lstrip (String c s))) eqn:Em.
    + exists (String c s). repeat split.
      * apply lstrip_blank. now destruct (lstrip (String c s)).
      * intros ws x I H. apply space_char_length in I.
        apply (f_equal String.length) in H. rewrite append_length in H. simpl in H. lia.
    + exists r. repeat split; [assumption | simpl; now rewrite <- E |].
      intros ws x I H. destruct x as [|d x]; simpl in H.
      * assert (blank (String c s)) as Bs.
        { rewrite E. change (blank ((String c (rstrip s)) ++ r)). rewrite H.
          now apply blank_cons. }
        apply lstrip_blank in Bs. rewrite Bs in Em. discriminate.
      * injection H as _ H. now apply (N ws x).
Qed.

Lemma rstrip_blank (r : string) : blank r -> rstrip r = EmptyString.
Proof.
  intros B. destruct r as [|c r]; [reflexivity|]. cbn [rstrip].
  apply lstrip_blank in B. now rewrite B.
Qed.

Lemma rstrip_unique (t r : string) :
  blank r -> (forall ws x, space_char ws -> t <> x ++ ws) -> rstrip (t ++ r) = t.
Proof.
  intros B. induction t as [|c t IH]; intros N; simpl append.
  - now apply rstrip_blank.
  - cbn [rstrip]. destruct (is_empty (lstrip (String c (t ++ r)))) eqn:Em.
    + exfalso.
      assert (blank (String c t ++ r)) as Bs
        by (apply lstrip_blank; simpl; now destruct (lstrip (String c (t ++ r)))).
      apply (blank_app_inv (String c t) r) in Bs; [|assumption].
      assert (String c t <> EmptyString) as Ne by discriminate.
      destruct (blank_last _ Bs Ne) as (x & ws & I & E).
      now apply (N ws x).
    + f_equal. apply IH. intros ws x I ->. now apply (N ws (String c x)).
Qed.

(** [strip] trims, and what it returns is the only trimmed text. *)
Lemma strip_trimmed (s : string) : trimmed s (strip s).
Proof.
  unfold strip.
  destruct (lstrip_spec s) as (l & Bl & El & Nl).
  destruct (rstrip_spec (lstrip s)) as (r & Br & Er & Nr).
  exists l, r. repeat split; try assumption.
  - now rewrite <- Er.
  - intros ws x I H. rewrite drop_space_none in Nl.
    apply (Nl ws (x ++ r) I). rewrite Er, H. now rewrite append_assoc.
Qed.

Lemma trimmed_strip (s t : string) : trimmed s t -> t = strip s.
Proof.
  intros (l & r & -> & Bl & Br & Nl & Nr). unfold strip.
  rewrite (lstrip_blank_app _ _ Bl).
  destruct t as [|c t].
  - simpl. apply lstrip_blank in Br. now rewrite Br.
  - rewrite lstrip_fixed.
    + symmetry. now apply rstrip_unique.
    + apply drop_space_app; [discriminate | | assumption].
      now apply drop_space_none.
Qed.

Lemma strip_spec (s t : string) : strip s = t <-> trimmed s t.
Proof.
  split; [intros <-; apply strip_trimmed | intros T; symmetry; now apply trimmed_strip].
Qed.

Lemma strip_blank (s : string) : strip s = EmptyString <-> blank s.
Proof.
  rewrite strip_spec. split.
  - intros (l & r & -> & Bl & Br & _). now apply blank_app.
  - intros B. exists s, EmptyString. rewrite append_nil_r.
    repeat split; try assumption; try constructor;
      intros ws x I H; apply space_char_length in I;
      apply (f_equal String.length) in H; rewrite append_length in H; simpl in H; lia.
Qed.

(** *** Quote characters and the payload *)

Section StripBy.
Variable p : ascii -> bool.
Variable c : ascii.
Hypothesis p_c : forall d, p d = true <-> d = c.

Lemma lstrip_by_spec (s : string) :
  exists l, s = l ++ lstrip_by p s /\ only c l /\ forall x, lstrip_by p s <> String c x.
Proof.
  induction s as [|d s (l & E & O & N)]; simpl.
  - exists EmptyString. repeat split. discriminate.
  - destruct (p d) eqn:Pd.
    + apply p_c in Pd as ->. exists (String c l). simpl. repeat split; try assumption.
      now rewrite <- E.
    + exists EmptyString. repeat split. intros x [= -> _].
      assert (p c = true) by now apply p_c. congruence.
Qed.

Lemma lstrip_by_only (l t : string) :
  only c l -> (forall x, t <> String c x) -> lstrip_by p (l ++ t) = t.
Proof.
  intros O N. induction l as [|d l IH]; simpl.
  - destruct t as [|d t]; [reflexivity|]. simpl.
    destruct (p d) eqn:Pd; [|reflexivity].
    apply p_c in Pd as ->. now elim (N t).
  - destruct O as [-> O]. assert (p c = true) as -> by now apply p_c. auto.
Qed.

Lemma rstrip_by_spec (s : string) :
  exists r, s = rstrip_by p s ++ r /\ only c r
            /\ forall x, rstrip_by p s <> x ++ String c EmptyString.
Proof.
  induction s as [|d s (r & E & O & N)]; simpl.
  - exists EmptyString. repeat split. intros [|? ?]; discriminate.
  - destruct (rstrip_by p s) as [|e u] eqn:R.
    + simpl in E. subst r. destruct (p d) eqn:Pd.
      * apply p_c in Pd as ->. exists (String c s). repeat split; assumption.
      * exists s. repeat split; try assumption.
        intros [|? [|? ?]]; simpl; try discriminate.
        intros [= ->]. assert (p c = true) by now apply p_c. congruence.
    + exists r. repeat split; try assumption.
      * simpl in E |- *. congruence.
      * intros [|f x]; simpl; [discriminate|]. intros [= -> H]. now apply (N x).
Qed.

Lemma rstrip_by_only (t r : string) :
  only c r -> (forall x, t <> x ++ String c EmptyString) -> rstrip_by p (t ++ r) = t.
Proof.
  intros O. induction t as [|d t IH]; intros N; simpl.
  - induction r as [|e r IHr]; simpl; [reflexivity|].
    destruct O as [-> O]. rewrite (IHr O).
    assert (p c = true) as -> by now apply p_c. reflexivity.
  - rewrite IH by (intros x ->; now apply (N (String d x))).
    destruct t as [|e t]; [|reflexivity].
    destruct (p d) eqn:Pd; [|reflexivity].
    apply p_c in Pd as ->. now elim (N EmptyString).
Qed.

Lemma only_app (a b : string) : only c a -> only c b -> only c (a ++ b).
Proof. induction a as [|d a IH]; simpl; [trivial|]. intros [-> O] Ob. split; auto. Qed.

Lemma strip_by_spec (s t : string) : strip_by p s = t <-> shorn c s t.
Proof.
  unfold strip_by. split.
  - intros <-.
    destruct (lstrip_by_spec s) as (l & El & Ol & Nl).
    destruct (rstrip_by_spec (lstrip_by p s)) as (r & Er & Or & Nr).
    exists l, r. repeat split; try assumption.
    + now rewrite <- Er.
    + intros x H. apply (Nl (x ++ r)). now rewrite Er, H.
  - intros (l & r & -> & Ol & Or & Nl & Nr).
    destruct t as [|d t].
    + simpl. rewrite <- (append_nil_r (l ++ r)).
      rewrite lstrip_by_only; [reflexivity | now apply only_app | discriminate].
    + rewrite lstrip_by_only; [now apply rstrip_by_only | assumption |].
      simpl. intros x [= -> _]. now apply (Nl t).
Qed.
End StripBy.

Lemma strip_chars_spec (c : ascii) (s t : string) :
  strip_chars (String c EmptyString) s = t <-> shorn c s t.
Proof.
  apply strip_by_spec. intros d. simpl. rewrite orb_false_r.
  destruct (Ascii.eqb_spec d c); split; congruence.
Qed.

Lemma unquote_spec (s q : string) : unquote s = q <-> quote_text s q.
Proof.
  unfold unquote, quote_text, DQ. split.
  - intros <-. exists (strip s), (strip_chars (String dquote EmptyString) (strip s)).
    split; [apply strip_trimmed|]. split; now apply strip_chars_spec.
  - intros (t1 & t2 & T & S1 & S2).
    apply trimmed_strip in T as ->.
    apply strip_chars_spec in S1 as <-. now apply strip_chars_spec in S2.
Qed.

Lemma find_first_minimal (sep s a b : string) :
  find_first sep s = Some (a, b) ->
  forall a' b', s = a' ++ sep ++ b' -> String.length a <= String.length a'.
Proof.
  revert a b; induction s as [|c s IH]; intros a b; simpl.
  - destruct (after_prefix sep EmptyString); [|discriminate].
    intros [= <- <-] a' b' _. simpl. lia.
  - destruct (after_prefix sep (String c s)) eqn:E.
    + intros [= <- <-] a' b' _. simpl. lia.
    + destruct (find_first sep s) as [[a0 b0]|] eqn:F; [|discriminate].
      intros [= <- <-] [|d a'] b' H; simpl in H.
      * apply after_prefix_spec in H. congruence.
      * injection H as _ H. simpl. specialize (IH a0 b0 eq_refl a' b' H). lia.
Qed.

Lemma find_first_spec (sep s before after : string) :
  find_first sep s = Some (before, after) <-> first_split sep s before after.
Proof.
  split.
  - intros F. split; [now apply find_first_sound | now apply (find_first_minimal sep s before after)].
  - intros [E Min].
    destruct (find_first sep s) as [[a b]|] eqn:F.
    + pose proof (find_first_sound _ _ _ _ F) as E'.
      pose proof (find_first_minimal _ _ _ _ F before after E) as L1.
      pose proof (Min a b E') as L2.
      assert (before = a /\ sep ++ after = sep ++ b) as [-> E2].
      { apply append_inj_length; [congruence | lia]. }
      apply append_inj_length in E2 as [_ ->]; reflexivity.
    + exfalso. subst s. now apply (find_first_complete sep before after).
Qed.

(** The payload of a message is what follows its first space, trimmed. *)
Lemma payload_spec (full p : string) : payload full p <-> p = payload_of full.
Proof.
  unfold payload, payload_of, partition. split.
  - intros (rest & [(cmd & S) | (N & ->)] & T).
    + apply find_first_spec in S. rewrite S. simpl. now apply trimmed_strip.
    + destruct (find_first " " full) as [[a b]|] eqn:F.
      * apply find_first_sound in F. now elim (N a b).
      * simpl. now apply trimmed_strip.
  - intros ->. destruct (find_first " " full) as [[a b]|] eqn:F; simpl.
    + exists b. split; [left; exists a; now apply find_first_spec | apply strip_trimmed].
    + exists EmptyString. split; [|apply strip_trimmed].
      right. split; [|reflexivity]. intros a b ->.
      now apply (find_first_complete " " a b).
Qed.

(** A trimmed text that splits at the separator has a part that is not
    blank on either side. *)
Lemma trimmed_parts (s p before after : string) :
  trimmed s p -> p = before ++ SEP ++ after -> ~ blank before /\ ~ blank after.
Proof.
  intros (l & r & _ & _ & _ & Nl & Nr) ->.
  assert (space_char " ") as Sp by (unfold space_char; vm_compute; tauto).
  split; intros B.
  - destruct (blank_inv _ B) as [-> | (ws & x & I & _ & ->)].
    + now apply (Nl " " ("- " ++ after) Sp).
    + apply (Nl ws (x ++ SEP ++ after) I). now rewrite append_assoc.
  - destruct after as [|c a].
    + apply (Nr " " (before ++ " -") Sp). unfold SEP.
      rewrite append_assoc. reflexivity.
    + destruct (blank_last _ B ltac:(discriminate)) as (x & ws & I & E).
      apply (Nr ws (before ++ SEP ++ x) I). rewrite E.
      now rewrite !append_assoc.
Qed.

(** *** Adding a quote *)

Lemma last_split_nonempty (s before after : string) :
  last_split s before after -> s <> EmptyString.
Proof. intros [-> _]. destruct before; discriminate. Qed.

Lemma last_split_contains (s before after : string) :
  last_split s before after -> contains SEP s = true.
Proof. intros [E _]. apply contains_spec. now exists before, after. Qed.

(** The [try] block of [add_quote], step by step on the payload. *)
Lemma parse_addquote_unfold (full : string) :
  parse_addquote full =
    if is_empty (payload_of full) then Raise ValueError
    else if negb (contains SEP (payload_of full)) then Raise ValueError
    else match find_last SEP (payload_of full) with
         | Some (before, after) =>
             if (is_empty (unquote before) || is_empty (strip after))%bool
             then Raise ValueError
             else Ok (unquote before, strip after)
         | None => Raise ValueError
         end.
Proof.
  unfold parse_addquote, payload_of, rpartition, unquote, SEP.
  destruct (is_empty _); [reflexivity|].
  destruct (negb _); [reflexivity|].
  destruct (find_last _ _) as [[a b]|]; reflexivity.
Qed.

(** Neither part of a payload is blank, wherever it is split. *)
Lemma payload_parts (full p before after : string) :
  payload full p -> p = before ++ SEP ++ after -> ~ blank before /\ ~ blank after.
Proof. intros (rest & _ & T). now apply trimmed_parts with rest. Qed.

(** When the parse succeeds, and what it returns. *)
Lemma parse_addquote_spec (full quote author : string) :
  parse_addquote full = Ok (quote, author) <-> well_formed full quote author.
Proof.
  unfold well_formed. rewrite parse_addquote_unfold. split.
  - destruct (is_empty (payload_of full)); [discriminate|].
    destruct (negb _); [discriminate|].
    destruct (find_last SEP (payload_of full)) as [[a b]|] eqn:F; [|discriminate].
    destruct (is_empty (unquote a)) eqn:Ea; [discriminate|].
    destruct (is_empty (strip b)) eqn:Eb; [discriminate|].
    intros [= <- <-]. exists (payload_of full), a, b.
    apply find_last_spec in F. apply is_empty_false in Ea.
    split; [now apply payload_spec|]. split; [exact F|].
    split; [now apply unquote_spec|]. split; [apply strip_trimmed | exact Ea].
  - intros (p & before & after & P & L & Q & T & Nq).
    pose proof (payload_parts _ _ _ _ P (proj1 L)) as [_ Nb].
    apply payload_spec in P as ->.
    apply unquote_spec in Q. apply trimmed_strip in T.
    assert (strip after <> EmptyString) as Na by now rewrite strip_blank.
    pose proof (last_split_nonempty _ _ _ L) as Ne.
    apply is_empty_false in Ne. rewrite Ne.
    rewrite (last_split_contains _ _ _ L). simpl.
    apply find_last_spec in L. rewrite L, Q, <- T.
    apply is_empty_false in Nq. rewrite <- T in Na. apply is_empty_false in Na.
    now rewrite Nq, Na.
Qed.

(** C4, as the code has it.  The parse succeeds exactly when the payload
    splits at the LAST occurrence of the separator and quote text is left
    of the part before it; the quote text is that part trimmed, then shorn
    of every leading and trailing double quote, then of every leading and
    trailing single quote; the author is the part after it, trimmed.
    Neither part of a payload is ever blank: it is the quote text, once its
    quote characters are gone, that can be empty. *)
Theorem parse_addquote_last_separator (full quote author : string) :
  (parse_addquote full = Ok (quote, author) <-> well_formed full quote author)
  /\ (forall p before after,
        payload full p -> p = before ++ SEP ++ after ->
        ~ blank before /\ ~ blank after).
Proof.
  split; [apply parse_addquote_spec | apply payload_parts].
Qed.

(** C4 as stated fails: of two double quotes on each side both are
    removed, where removing a single one would leave a quoted text. *)
Lemma parse_addquote_strips_every_quote :
  parse_addquote ("/addquote " ++ DQ ++ DQ ++ "Hi" ++ DQ ++ DQ ++ " - Bob") = Ok ("Hi", "Bob")
  /\ payload_of ("/addquote " ++ DQ ++ DQ ++ "Hi" ++ DQ ++ DQ ++ " - Bob")
       = (DQ ++ DQ ++ "Hi" ++ DQ ++ DQ) ++ SEP ++ "Bob"
  /\ unquote_once (DQ ++ DQ ++ "Hi" ++ DQ ++ DQ) = DQ ++ "Hi" ++ DQ
  /\ "Hi" <> DQ ++ "Hi" ++ DQ.
Proof.
  repeat split. discriminate.
Qed.

(** A message with whitespace to trim everywhere, a no-break space at its
    end, the separator inside the quote, and one quote character on either
    side of it. *)
Lemma parse_addquote_last_separator_witness :
  parse_addquote ("/addquote   'a - b' - c'  -   d " ++ chr 160)
  = Ok ("a - b' - c", "d").
Proof.
  apply (parse_addquote_last_separator
           ("/addquote   'a - b' - c'  -   d " ++ chr 160) "a - b' - c" "d").
  exists "'a - b' - c'  -   d", "'a - b' - c' ", "  d".
  split; [apply payload_spec; reflexivity|].
  split; [apply find_last_spec; reflexivity|].
  split; [apply unquote_spec; reflexivity|].
  split; [apply strip_spec; reflexivity | discriminate].
Defined.

Lemma parse_addquote_rejects (full p : string) :
  payload full p ->
  (p = EmptyString
   \/ (forall before after, p <> before ++ SEP ++ after)
   \/ (exists before after,
         last_split p before after
         /\ (quote_text before EmptyString \/ trimmed after EmptyString))) ->
  parse_addquote full = Raise ValueError.
Proof.
  intros P. apply payload_spec in P as ->.
  rewrite parse_addquote_unfold.
  intros [E | [N | (before & after & L & B)]].
  - now rewrite E.
  - apply contains_false in N. rewrite N.
    now destruct (is_empty (payload_of full)).
  - destruct (is_empty (payload_of full)); [reflexivity|].
    destruct (negb _); [reflexivity|].
    apply find_last_spec in L. rewrite L.
    destruct B as [B | B].
    + apply unquote_spec in B. now rewrite B.
    + apply trimmed_strip in B. rewrite <- B. simpl. now rewrite orb_true_r.
Qed.

(** C2.  When the owner sends an addquote whose payload is empty, has no
    separator, or splits at the last separator into a part with no quote
    text left or a part with no author, the only effect is the reply that
    shows the format: the backing file, and the log, are as they were.
    (A payload is trimmed, so the part after the separator always has an
    author; the quote text is empty when the part before the separator is
    made of quote characters.) *)
Theorem add_quote_rejects_bad_payload (owner : Z) (u : User) (update : Update)
    (context : CallbackContext) (w : world) (p : string) :
  effective_user update = Some u -> id u = owner ->
  payload (text (message update)) p ->
  (p = EmptyString
   \/ (forall before after, p <> before ++ SEP ++ after)
   \/ (exists before after,
         last_split p before after
         /\ (quote_text before EmptyString \/ trimmed after EmptyString))) ->
  add_quote (Some owner) update context w
    = (Ok tt, replied w (plain INVALID_FORMAT))
  /\ disk (snd (add_quote (Some owner) update context w)) = disk w.
Proof.
  intros Hu Hid P Bad.
  assert (add_quote (Some owner) update context w
            = (Ok tt, replied w (plain INVALID_FORMAT))) as E.
  { unfold add_quote, owner_only. rewrite Hu, Hid, Z.eqb_refl.
    unfold add_quote_body. now rewrite (parse_addquote_rejects _ _ P Bad). }
  split; [exact E | now rewrite E].
Qed.

(** The three cases in turn, and a payload that loses its author to
    trimming: an em space is whitespace. *)
Lemma add_quote_rejects_bad_payload_witness :
  (add_quote (Some 7%Z) (from_user 7 "/addquote") (with_args [])
       (holding quotes_sample)
     = (Ok tt, replied (holding quotes_sample) (plain INVALID_FORMAT))
   /\ disk (snd (add_quote (Some 7%Z) (from_user 7 "/addquote") (with_args [])
                   (holding quotes_sample)))
      = disk (holding quotes_sample))
  /\ (add_quote (Some 7%Z) (from_user 7 "/addquote NoSeparatorHere") (with_args [])
        (holding quotes_sample)
      = (Ok tt, replied (holding quotes_sample) (plain INVALID_FORMAT))
      /\ disk (snd (add_quote (Some 7%Z) (from_user 7 "/addquote NoSeparatorHere")
                      (with_args []) (holding quotes_sample)))
         = disk (holding quotes_sample))
  /\ (add_quote (Some 7%Z) (from_user 7 ("/addquote " ++ DQ ++ DQ ++ " - Bob"))
        (with_args []) (holding quotes_sample)
      = (Ok tt, replied (holding quotes_sample) (plain INVALID_FORMAT))
      /\ disk (snd (add_quote (Some 7%Z)
                      (from_user 7 ("/addquote " ++ DQ ++ DQ ++ " - Bob"))
                      (with_args []) (holding quotes_sample)))
         = disk (holding quotes_sample))
  /\ (add_quote (Some 7%Z)
        (from_user 7 ("/addquote " ++ DQ ++ "Hi" ++ DQ ++ " - " ++ chr 8195))
        (with_args []) (holding quotes_sample)
      = (Ok tt, replied (holding quotes_sample) (plain INVALID_FORMAT))
      /\ disk (snd (add_quote (Some 7%Z)
                      (from_user 7 ("/addquote " ++ DQ ++ "Hi" ++ DQ ++ " - " ++ chr 8195))
                      (with_args []) (holding quotes_sample)))
         = disk (holding quotes_sample)).
Proof.
  split; [|split; [|split]].
  - apply (add_quote_rejects_bad_payload 7 {| id := 7 |}
             (from_user 7 "/addquote") (with_args []) (holding quotes_sample)
             EmptyString); [reflexivity | reflexivity | |].
    + apply payload_spec. reflexivity.
    + left. reflexivity.
  - apply (add_quote_rejects_bad_payload 7 {| id := 7 |}
             (from_user 7 "/addquote NoSeparatorHere") (with_args [])
             (holding quotes_sample) "NoSeparatorHere"); [reflexivity | reflexivity | |].
    + apply payload_spec. reflexivity.
    + right; left. apply contains_false. reflexivity.
  - apply (add_quote_rejects_bad_payload 7 {| id := 7 |}
             (from_user 7 ("/addquote " ++ DQ ++ DQ ++ " - Bob")) (with_args [])
             (holding quotes_sample) (DQ ++ DQ ++ " - Bob"));
      [reflexivity | reflexivity | |].
    + apply payload_spec. reflexivity.
    + right; right. exists (DQ ++ DQ), "Bob".
      split; [apply find_last_spec; reflexivity|].
      left. apply unquote_spec. reflexivity.
  - apply (add_quote_rejects_bad_payload 7 {| id := 7 |}
             (from_user 7 ("/addquote " ++ DQ ++ "Hi" ++ DQ ++ " - " ++ chr 8195))
             (with_args []) (holding quotes_sample) (DQ ++ "Hi" ++ DQ ++ " -"));
      [reflexivity | reflexivity | |].
    + apply payload_spec. reflexivity.
    + right; left. apply contains_false. reflexivity.
Defined.

(** *** JSON text: strings *)

Lemma scanstring_escape_char (c : ascii) (t : string) :
  scanstring (escape_char c ++ t) = prepend (String c EmptyString) (scanstring t).
Proof.
  destruct c as [[] [] [] [] [] [] [] []]; reflexivity.
Qed.

(** An escaped string reads back as the string it came from. *)
Lemma scanstring_escape (s rest : string) :
  scanstring (escape s ++ DQ ++ rest) = Parsed s rest.
Proof.
  induction s as [|c s IH]; [reflexivity|].
  cbn [escape]. now rewrite append_assoc, scanstring_escape_char, IH.
Qed.

Lemma lstrip_by_length (p : ascii -> bool) (s : string) :
  String.length (lstrip_by p s) <= String.length s.
Proof.
  induction s as [|c s IH]; simpl; [lia|].
  destruct (p c); simpl; lia.
Qed.

Lemma skip_ws_length (s : string) : String.length (skip_ws s) <= String.length s.
Proof. apply lstrip_by_length. Qed.

Lemma prepend_parsed (p : string) (r : parsed string) (x rest : string) :
  prepend p r = Parsed x rest ->
  exists y, r = Parsed y rest /\ x = p ++ y.
Proof.
  destruct r as [y rest'| | |]; simpl; try discriminate.
  intros [= <- <-]. now exists y.
Qed.

Lemma tainted_parsed (r : parsed string) (x rest : string) :
  tainted r <> Parsed x rest.
Proof. destruct r; discriminate. Qed.

(** Scanning a string consumes at least its closing quote. *)
Lemma scanstring_shorter (s x rest : string) :
  scanstring s = Parsed x rest -> String.length rest < String.length s.
Proof.
  remember (String.length s) as n eqn:L.
  revert s x rest L.
  induction n as [n IH] using lt_wf_ind.
  intros s x rest L. destruct s as [|c r]; simpl; [discriminate|].
  simpl in L.
  destruct (Ascii.eqb c dquote); [intros [= <- <-]; lia|].
  destruct (Ascii.eqb c "\").
  - destruct r as [|e r1]; [discriminate|].
    destruct (Ascii.eqb e "u").
    + destruct r1 as [|h1 [|h2 [|h3 [|h4 r2]]]]; try discriminate.
      destruct (hex4 h1 h2 h3 h4) as [uni|]; [|discriminate].
      simpl in L.
      destruct (is_high_surrogate uni).
      * destruct r2 as [|b1 [|b2 [|g1 [|g2 [|g3 [|g4 r4]]]]]];
          try (intros P; now apply tainted_parsed in P).
        destruct (Ascii.eqb b1 "\" && Ascii.eqb b2 "u")%bool;
          [|intros P; now apply tainted_parsed in P].
        destruct (hex4 g1 g2 g3 g4) as [uni2|]; [|discriminate].
        destruct (is_low_surrogate uni2);
          [|intros P; now apply tainted_parsed in P].
        intros P; apply prepend_parsed in P as (y & S2 & _).
        simpl in L.
        specialize (IH (String.length r4) ltac:(lia) r4 y rest eq_refl S2). lia.
      * destruct (is_low_surrogate uni);
          [intros P; now apply tainted_parsed in P|].
        intros P; apply prepend_parsed in P as (y & S2 & _).
        specialize (IH (String.length r2) ltac:(lia) r2 y rest eq_refl S2). lia.
    + destruct (unescape e); [|discriminate].
      intros P; apply prepend_parsed in P as (y & S2 & _).
      simpl in L.
      specialize (IH (String.length r1) ltac:(lia) r1 y rest eq_refl S2). lia.
  - destruct (Nat.ltb (nat_of_ascii c) 32); [discriminate|].
    intros P; apply prepend_parsed in P as (y & S2 & _).
    specialize (IH (String.length r) ltac:(lia) r y rest eq_refl S2). lia.
Qed.

Lemma scanstring_fuel (s : string) : scanstring s <> NoFuel.
Proof.
  remember (String.length s) as n eqn:L.
  revert s L.
  induction n as [n IH] using lt_wf_ind.
  assert (forall p r, String.length r < n -> prepend p (scanstring r) <> NoFuel) as Pre.
  { intros p r Lr. specialize (IH _ Lr r eq_refl).
    destruct (scanstring r); simpl; congruence. }
  assert (forall r, String.length r < n -> tainted (scanstring r) <> NoFuel) as Tai.
  { intros r Lr. specialize (IH _ Lr r eq_refl).
    destruct (scanstring r); simpl; congruence. }
  intros s L. destruct s as [|c r]; simpl; [discriminate|].
  simpl in L.
  destruct (Ascii.eqb c dquote); [discriminate|].
  destruct (Ascii.eqb c "\").
  - destruct r as [|e r1]; [discriminate|].
    destruct (Ascii.eqb e "u").
    + destruct r1 as [|h1 [|h2 [|h3 [|h4 r2]]]]; try discriminate.
      destruct (hex4 h1 h2 h3 h4) as [uni|]; [|discriminate].
      simpl in L.
      destruct (is_high_surrogate uni).
      * destruct r2 as [|b1 [|b2 [|g1 [|g2 [|g3 [|g4 r4]]]]]];
          try (apply Tai; simpl in L |- *; lia).
        destruct (Ascii.eqb b1 "\" && Ascii.eqb b2 "u")%bool;
          [|apply Tai; simpl in L |- *; lia].
        destruct (hex4 g1 g2 g3 g4) as [uni2|]; [|discriminate].
        destruct (is_low_surrogate uni2); [|apply Tai; simpl in L |- *; lia].
        apply Pre. simpl in L. lia.
      * destruct (is_low_surrogate uni); [apply Tai; lia | apply Pre; lia].
    + destruct (unescape e); [|discriminate].
      apply Pre. simpl in L. lia.
  - destruct (Nat.ltb (nat_of_ascii c) 32); [discriminate|].
    apply Pre. lia.
Qed.

(** *** JSON text: numbers and constants *)

Lemma after_prefix_shorter (p s r : string) :
  after_prefix p s = Some r -> String.length r + String.length p = String.length s.
Proof.
  intros H. apply after_prefix_spec in H as ->. rewrite append_length. lia.
Qed.

Lemma span_digits_length (s : string) :
  String.length (snd (span_digits s)) <= String.length s.
Proof.
  induction s as [|c s IH]; simpl; [lia|].
  destruct (is_digit c); simpl; [|lia].
  destruct (span_digits s); simpl in *; lia.
Qed.

Lemma scan_integer_shorter (s : string) (neg : bool) (ds r : string) :
  scan_integer s = Some (neg, ds, r) -> String.length r < String.length s.
Proof.
  unfold scan_integer.
  assert (forall s1 n, (match s1 with
            | EmptyString => None
            | String c r0 =>
                if Ascii.eqb c "0" then Some (n, "0", r0)
                else if is_digit c
                     then let (ds0, rest) := span_digits r0 in Some (n, String c ds0, rest)
                     else None
            end = Some (neg, ds, r)) -> String.length r < String.length s1) as Core.
  { intros [|c r0] n; [discriminate|]. simpl.
    destruct (Ascii.eqb c "0"); [intros [= _ _ <-]; lia|].
    destruct (is_digit c); [|discriminate].
    pose proof (span_digits_length r0) as L.
    destruct (span_digits r0) as [d rest]. simpl in L. intros [= _ _ <-]. lia. }
  destruct s as [|c r0]; [discriminate|].
  destruct (Ascii.eqb c "-").
  - intros H. specialize (Core r0 true H). simpl. lia.
  - intros H. exact (Core (String c r0) false H).
Qed.

Lemma scan_fraction_length (s : string) :
  String.length (snd (scan_fraction s)) <= String.length s.
Proof.
  destruct s as [|c r]; simpl; [lia|].
  destruct (Ascii.eqb c "."); simpl; [|lia].
  pose proof (span_digits_length r) as L.
  destruct (span_digits r) as [ds rest]. simpl in L.
  destruct (is_empty ds); simpl; lia.
Qed.

Lemma scan_exponent_length (s : string) :
  String.length (snd (scan_exponent s)) <= String.length s.
Proof.
  destruct s as [|e r]; simpl; [lia|].
  destruct (Ascii.eqb e "e" || Ascii.eqb e "E")%bool; simpl; [|lia].
  destruct r as [|g r'].
  - simpl. lia.
  - destruct (Ascii.eqb g "+" || Ascii.eqb g "-")%bool.
    + pose proof (span_digits_length r') as L.
      destruct (span_digits r') as [ds rest]. simpl in L.
      destruct (is_empty ds); simpl; lia.
    + pose proof (span_digits_length (String g r')) as L.
      destruct (span_digits (String g r')) as [ds rest]. simpl in L.
      destruct (is_empty ds); simpl; lia.
Qed.

Lemma scan_number_shorter (s : string) (v : value) (rest : string) :
  scan_number s = Some (v, rest) -> String.length rest < String.length s.
Proof.
  unfold scan_number.
  destruct (scan_integer s) as [[[neg ds] r]|] eqn:I; [|discriminate].
  apply scan_integer_shorter in I.
  pose proof (scan_fraction_length r) as F.
  destruct (scan_fraction r) as [frac r1]. simpl in F.
  pose proof (scan_exponent_length r1) as E.
  destruct (scan_exponent r1) as [ex r2]. simpl in E.
  destruct (is_empty frac && is_empty ex)%bool; intros [= _ <-]; lia.
Qed.

Lemma scan_atom_shorter (s : string) (v : value) (rest : string) :
  scan_atom s = Parsed v rest -> String.length rest < String.length s.
Proof.
  unfold scan_atom.
  repeat match goal with
  | |- context [after_prefix ?p s] =>
      let E := fresh "E" in
      destruct (after_prefix p s) eqn:E;
      [apply after_prefix_shorter in E; simpl in E; intros [= _ <-]; lia|]
  end.
  destruct (scan_number s) as [[v' r]|] eqn:N; [|discriminate].
  apply scan_number_shorter in N. intros [= _ <-]. exact N.
Qed.

Lemma scan_atom_fuel (s : string) : scan_atom s <> NoFuel.
Proof.
  unfold scan_atom.
  repeat match goal with
  | |- context [after_prefix ?p s] => destruct (after_prefix p s); [discriminate|]
  end.
  destruct (scan_number s) as [[v r]|]; discriminate.
Qed.

(** *** JSON text: the scanner and its fuel *)

Arguments scan_atom : simpl never.
Arguments scanstring : simpl never.
Arguments skip_ws : simpl never.

(** Every scan that succeeds consumes something. *)
Lemma scan_shorter (f : nat) :
  (forall s v rest, scan_once f s = Parsed v rest ->
     String.length rest < String.length s)
  /\ (forall s vs rest, scan_elems f s = Parsed vs rest ->
        String.length rest < String.length s)
  /\ (forall s ms rest, scan_members f s = Parsed ms rest ->
        String.length rest < String.length s).
Proof.
  induction f as [|n (IHo & IHe & IHm)]; [repeat split; discriminate|].
  repeat apply conj.
  - intros [|c r] v rest; simpl; [discriminate|].
    destruct (Ascii.eqb c dquote).
    { destruct (scanstring r) as [x rest'| | |] eqn:S; try discriminate.
      intros [= _ <-]. apply scanstring_shorter in S. lia. }
    destruct (Ascii.eqb c "{").
    { pose proof (skip_ws_length r) as L.
      destruct (skip_ws r) as [|c1 r1]; [discriminate|]. simpl in L.
      destruct (Ascii.eqb c1 "}"); [intros [= _ <-]; lia|].
      destruct (Ascii.eqb c1 dquote); [|discriminate].
      destruct (scan_members n r1) as [ms rest'| | |] eqn:M; try discriminate.
      intros [= _ <-]. apply IHm in M. lia. }
    destruct (Ascii.eqb c "[").
    { pose proof (skip_ws_length r) as L.
      destruct (skip_ws r) as [|c1 r1]; [discriminate|]. simpl in L.
      destruct (Ascii.eqb c1 "]"); [intros [= _ <-]; lia|].
      destruct (scan_elems n (String c1 r1)) as [vs rest'| | |] eqn:E;
        try discriminate.
      intros [= _ <-]. apply IHe in E. simpl in E. lia. }
    intros H. now apply scan_atom_shorter in H.
  - intros s vs rest; simpl.
    destruct (scan_once n s) as [v r0| | |] eqn:O; try discriminate.
    apply IHo in O.
    pose proof (skip_ws_length r0) as L.
    destruct (skip_ws r0) as [|c r]; [discriminate|]. simpl in L.
    destruct (Ascii.eqb c "]"); [intros [= _ <-]; lia|].
    destruct (Ascii.eqb c ","); [|discriminate].
    destruct (scan_elems n (skip_ws r)) as [vs' rest'| | |] eqn:E;
      try discriminate.
    intros [= _ <-]. apply IHe in E. pose proof (skip_ws_length r). lia.
  - intros s ms rest; simpl.
    pose proof (scanstring_fuel s) as Ks.
    destruct (scanstring s) as [key r0| | |] eqn:K; try discriminate;
      try congruence.
    apply scanstring_shorter in K.
    pose proof (skip_ws_length r0) as L.
    destruct (skip_ws r0) as [|c r]; [discriminate|]. simpl in L.
    destruct (Ascii.eqb c ":"); [|discriminate].
    destruct (scan_once n (skip_ws r)) as [v r1| | |] eqn:O; try discriminate.
    apply IHo in O. pose proof (skip_ws_length r) as L1.
    pose proof (skip_ws_length r1) as L2.
    destruct (skip_ws r1) as [|c1 r2]; [discriminate|]. simpl in L2.
    destruct (Ascii.eqb c1 "}"); [intros [= _ <-]; lia|].
    destruct (Ascii.eqb c1 ","); [|discriminate].
    pose proof (skip_ws_length r2) as L3.
    destruct (skip_ws r2) as [|c2 r3]; [discriminate|]. simpl in L3.
    destruct (Ascii.eqb c2 dquote); [|discriminate].
    destruct (scan_members n r3) as [ms' rest'| | |] eqn:M; try discriminate.
    intros [= _ <-]. apply IHm in M. lia.
Qed.

(** Twice the length of the text, and one more, is fuel enough: the
    scanner never stops for lack of it. *)
Lemma scan_fuel_suffices (f : nat) :
  (forall s, 2 * String.length s + 1 <= f -> scan_once f s <> NoFuel)
  /\ (forall s, 2 * String.length s + 2 <= f -> scan_elems f s <> NoFuel)
  /\ (forall s, 2 * String.length s + 2 <= f -> scan_members f s <> NoFuel).
Proof.
  induction f as [|n (IHo & IHe & IHm)]; [repeat split; intros; lia|].
  repeat apply conj.
  - intros [|c r] F; simpl; [discriminate|]. simpl in F.
    destruct (Ascii.eqb c dquote).
    { pose proof (scanstring_fuel r) as Ks.
      destruct (scanstring r) as [x rest'| | |]; congruence. }
    destruct (Ascii.eqb c "{").
    { pose proof (skip_ws_length r) as L.
      destruct (skip_ws r) as [|c1 r1]; [discriminate|]. simpl in L.
      destruct (Ascii.eqb c1 "}"); [discriminate|].
      destruct (Ascii.eqb c1 dquote); [|discriminate].
      assert (scan_members n r1 <> NoFuel) as N by (apply IHm; lia).
      destruct (scan_members n r1); congruence. }
    destruct (Ascii.eqb c "[").
    { pose proof (skip_ws_length r) as L.
      destruct (skip_ws r) as [|c1 r1]; [discriminate|]. simpl in L.
      destruct (Ascii.eqb c1 "]"); [discriminate|].
      assert (scan_elems n (String c1 r1) <> NoFuel) as N
        by (apply IHe; simpl; lia).
      destruct (scan_elems n (String c1 r1)); congruence. }
    apply scan_atom_fuel.
  - intros s F; simpl.
    assert (scan_once n s <> NoFuel) as N by (apply IHo; lia).
    destruct (scan_once n s) as [v r0| | |] eqn:O; [|discriminate|discriminate|congruence].
    apply scan_shorter in O.
    pose proof (skip_ws_length r0) as L.
    destruct (skip_ws r0) as [|c r]; [discriminate|]. simpl in L.
    destruct (Ascii.eqb c "]"); [discriminate|].
    destruct (Ascii.eqb c ","); [|discriminate].
    pose proof (skip_ws_length r) as L1.
    assert (scan_elems n (skip_ws r) <> NoFuel) as N' by (apply IHe; lia).
    destruct (scan_elems n (skip_ws r)); congruence.
  - intros s F; simpl.
    pose proof (scanstring_fuel s) as Ks.
    destruct (scanstring s) as [key r0| | |] eqn:K; try discriminate;
      try congruence.
    apply scanstring_shorter in K.
    pose proof (skip_ws_length r0) as L.
    destruct (skip_ws r0) as [|c r]; [discriminate|]. simpl in L.
    destruct (Ascii.eqb c ":"); [|discriminate].
    pose proof (skip_ws_length r) as L1.
    assert (scan_once n (skip_ws r) <> NoFuel) as N by (apply IHo; lia).
    destruct (scan_once n (skip_ws r)) as [v r1| | |] eqn:O;
      [|discriminate|discriminate|congruence].
    apply scan_shorter in O.
    pose proof (skip_ws_length r1) as L2.
    destruct (skip_ws r1) as [|c1 r2]; [discriminate|]. simpl in L2.
    destruct (Ascii.eqb c1 "}"); [discriminate|].
    destruct (Ascii.eqb c1 ","); [|discriminate].
    pose proof (skip_ws_length r2) as L3.
    destruct (skip_ws r2) as [|c2 r3]; [discriminate|]. simpl in L3.
    destruct (Ascii.eqb c2 dquote); [|discriminate].
    assert (scan_members n r3 <> NoFuel) as N' by (apply IHm; lia).
    destruct (scan_members n r3); congruence.
Qed.

(** More fuel changes no result. *)
Lemma scan_fuel_mono (f : nat) :
  (forall s f', f <= f' -> scan_once f s <> NoFuel ->
     scan_once f' s = scan_once f s)
  /\ (forall s f', f <= f' -> scan_elems f s <> NoFuel ->
        scan_elems f' s = scan_elems f s)
  /\ (forall s f', f <= f' -> scan_members f s <> NoFuel ->
        scan_members f' s = scan_members f s).
Proof.
  induction f as [|n (IHo & IHe & IHm)];
    [repeat split; intros s f' _ H; now elim H|].
  repeat apply conj.
  - intros [|c r] [|n'] F; try lia; simpl; [reflexivity|].
    destruct (Ascii.eqb c dquote); [reflexivity|].
    destruct (Ascii.eqb c "{").
    { destruct (skip_ws r) as [|c1 r1]; [reflexivity|].
      destruct (Ascii.eqb c1 "}"); [reflexivity|].
      destruct (Ascii.eqb c1 dquote); [|reflexivity].
      intros H. rewrite (IHm r1 n'); [reflexivity | lia |].
      intros E. now rewrite E in H. }
    destruct (Ascii.eqb c "[").
    { destruct (skip_ws r) as [|c1 r1]; [reflexivity|].
      destruct (Ascii.eqb c1 "]"); [reflexivity|].
      intros H. rewrite (IHe (String c1 r1) n'); [reflexivity | lia |].
      intros E. now rewrite E in H. }
    reflexivity.
  - intros s [|n'] F; try lia; simpl. intros H.
    rewrite (IHo s n'); [| lia | intros E; now rewrite E in H].
    destruct (scan_once n s) as [v r0| | |]; try reflexivity.
    destruct (skip_ws r0) as [|c r]; [reflexivity|].
    destruct (Ascii.eqb c "]"); [reflexivity|].
    destruct (Ascii.eqb c ","); [|reflexivity].
    rewrite (IHe (skip_ws r) n'); [reflexivity | lia |].
    intros E. now rewrite E in H.
  - intros s [|n'] F; try lia; simpl. intros H.
    destruct (scanstring s) as [key r0| | |]; try reflexivity.
    destruct (skip_ws r0) as [|c r]; [reflexivity|].
    destruct (Ascii.eqb c ":"); [|reflexivity].
    rewrite (IHo (skip_ws r) n'); [| lia | intros E; now rewrite E in H].
    destruct (scan_once n (skip_ws r)) as [v r1| | |]; try reflexivity.
    destruct (skip_ws r1) as [|c1 r2]; [reflexivity|].
    destruct (Ascii.eqb c1 "}"); [reflexivity|].
    destruct (Ascii.eqb c1 ","); [|reflexivity].
    destruct (skip_ws r2) as [|c2 r3]; [reflexivity|].
    destruct (Ascii.eqb c2 dquote); [|reflexivity].
    rewrite (IHm r3 n'); [reflexivity | lia |].
    intros E. now rewrite E in H.
Qed.

(** [json_loads] never stops for lack of fuel. *)
Lemma json_loads_terminates (s : string) : json_loads s <> Raise RecursionError.
Proof.
  unfold json_loads.
  pose proof (skip_ws_length s) as L.
  assert (scan_once (2 * String.length s + 1) (skip_ws s) <> NoFuel) as N
    by (apply scan_fuel_suffices; lia).
  destruct (scan_once _ (skip_ws s)) as [v rest| | |];
    [destruct (is_empty _); discriminate | discriminate | discriminate | congruence].
Qed.

(** *** JSON text: integers *)

Lemma closes_number_digit (rest : string) :
  closes_number rest = true -> span_digits rest = (EmptyString, rest).
Proof.
  destruct rest as [|c r]; [reflexivity|]. simpl.
  intros C. destruct (is_digit c); [discriminate | reflexivity].
Qed.

Lemma closes_number_fraction (rest : string) :
  closes_number rest = true -> scan_fraction rest = (EmptyString, rest).
Proof.
  destruct rest as [|c r]; [reflexivity|]. simpl.
  destruct (is_digit c); [discriminate|].
  destruct (Ascii.eqb c "."); [discriminate | reflexivity].
Qed.

Lemma closes_number_exponent (rest : string) :
  closes_number rest = true -> scan_exponent rest = (EmptyString, rest).
Proof.
  destruct rest as [|c r]; [reflexivity|]. simpl.
  destruct (is_digit c); [discriminate|].
  destruct (Ascii.eqb c "."); [discriminate|].
  destruct (Ascii.eqb c "e"); [discriminate|].
  destruct (Ascii.eqb c "E"); [discriminate | reflexivity].
Qed.

Lemma span_digits_uint (d : Decimal.uint) (rest : string) :
  closes_number rest = true ->
  span_digits (NilEmpty.string_of_uint d ++ rest) = (NilEmpty.string_of_uint d, rest).
Proof.
  intros C. induction d as [|d IH|d IH|d IH|d IH|d IH|d IH|d IH|d IH|d IH|d IH];
    [now apply closes_number_digit | ..];
    cbn [NilEmpty.string_of_uint append span_digits];
    change (is_digit _) with true; cbv iota; now rewrite IH.
Qed.

Lemma digits_value_acc (d : Decimal.uint) (acc : positive) :
  digits_value (Z.pos acc) (NilEmpty.string_of_uint d) = Z.pos (Pos.of_uint_acc d acc).
Proof.
  revert acc. induction d as [|d IH|d IH|d IH|d IH|d IH|d IH|d IH|d IH|d IH|d IH];
    intros acc; [reflexivity | ..];
    cbn [NilEmpty.string_of_uint digits_value Pos.of_uint_acc]; rewrite <- IH;
    f_equal;
    match goal with
    | |- context [Z.of_nat ?n] =>
        let v := eval vm_compute in (Z.of_nat n) in change (Z.of_nat n) with v
    end; lia.
Qed.

Lemma digits_value_uint (d : Decimal.uint) :
  digits_value 0 (NilEmpty.string_of_uint d) = Z.of_N (Pos.of_uint d).
Proof.
  induction d as [|d IH|d IH|d IH|d IH|d IH|d IH|d IH|d IH|d IH|d IH];
    [reflexivity | exact IH | ..];
    cbn [NilEmpty.string_of_uint digits_value Pos.of_uint Z.of_N];
    rewrite <- digits_value_acc; reflexivity.
Qed.

(** The digits of a positive number: they start with none that is zero,
    and their value is the number. *)
Lemma to_uint_head (p : positive) : forall d, Pos.to_uint p <> Decimal.D0 d.
Proof.
  intros d E.
  pose proof (DecimalPos.Unsigned.to_of (Pos.to_uint p)) as T.
  rewrite DecimalPos.Unsigned.of_to in T. simpl in T.
  destruct (Decimal.uint_eq_dec (Decimal.nzhead (Pos.to_uint p)) Decimal.Nil) as [H | H].
  - apply DecimalFacts.unorm_0 in H. rewrite <- T in H.
    now apply (DecimalPos.Unsigned.to_uint_nonzero p).
  - rewrite (DecimalFacts.unorm_nzhead _ H) in T.
    apply (DecimalFacts.nzhead_nonzero (Pos.to_uint p) d). now rewrite <- T.
Qed.

Lemma digits_value_pos (p : positive) :
  digits_value 0 (NilEmpty.string_of_uint (Pos.to_uint p)) = Z.pos p.
Proof. now rewrite digits_value_uint, DecimalPos.Unsigned.of_to. Qed.

Lemma scan_integer_digit (c : ascii) (r : string) :
  is_digit c = true -> Ascii.eqb c "0" = false ->
  scan_integer (String c r)
  = Some (false, String c (fst (span_digits r)), snd (span_digits r)).
Proof.
  intros D Z. unfold scan_integer.
  destruct (Ascii.eqb_spec c "-") as [-> | _]; [discriminate|].
  rewrite Z, D. now destruct (span_digits r).
Qed.

Lemma scan_integer_minus (c : ascii) (r : string) :
  is_digit c = true ->
  scan_integer (String "-" (String c r))
  = match scan_integer (String c r) with
    | Some (_, ds, rest) => Some (true, ds, rest)
    | None => None
    end.
Proof.
  intros D. unfold scan_integer.
  destruct (Ascii.eqb_spec c "-") as [-> | _]; [discriminate|].
  change (Ascii.eqb "-" "-") with true. cbv iota.
  destruct (Ascii.eqb c "0"); [reflexivity|].
  rewrite D. now destruct (span_digits r).
Qed.

Lemma string_of_uint_head (p : positive) :
  exists c r, NilEmpty.string_of_uint (Pos.to_uint p) = String c r /\ is_digit c = true.
Proof.
  pose proof (DecimalPos.Unsigned.to_uint_nonnil p) as N.
  destruct (Pos.to_uint p); [now elim N | ..];
    eexists; eexists; (split; [reflexivity | reflexivity]).
Qed.

(** The text of a natural number scans as its digits. *)
Lemma scan_integer_pos (p : positive) (rest : string) :
  closes_number rest = true ->
  scan_integer (NilEmpty.string_of_uint (Pos.to_uint p) ++ rest)
  = Some (false, NilEmpty.string_of_uint (Pos.to_uint p), rest).
Proof.
  intros C. pose proof (to_uint_head p) as H.
  pose proof (DecimalPos.Unsigned.to_uint_nonnil p) as N.
  destruct (Pos.to_uint p) as [|d|d|d|d|d|d|d|d|d|d];
    [now elim N | now elim (H d) | ..];
    cbn [NilEmpty.string_of_uint append];
    (rewrite scan_integer_digit by reflexivity);
    now rewrite span_digits_uint.
Qed.

Lemma scan_number_int (z : Z) (rest : string) :
  closes_number rest = true ->
  scan_number (encode_int z ++ rest) = Some (VInt z, rest).
Proof.
  intros C. unfold scan_number, encode_int.
  destruct z as [|p|p]; cbn [Z.to_int NilEmpty.string_of_int].
  - cbn. rewrite (closes_number_fraction _ C), (closes_number_exponent _ C). reflexivity.
  - rewrite (scan_integer_pos p rest C).
    rewrite (closes_number_fraction _ C), (closes_number_exponent _ C).
    cbn [is_empty andb]. now rewrite digits_value_pos.
  - cbn [append]. pose proof (scan_integer_pos p rest C) as S.
    destruct (string_of_uint_head p) as (c & r & E & D). rewrite E in *.
    cbn [append] in *. rewrite (scan_integer_minus c _ D), S.
    rewrite (closes_number_fraction _ C), (closes_number_exponent _ C).
    cbn [is_empty andb]. rewrite <- E. now rewrite digits_value_pos.
Qed.

(** The text of an integer starts with a digit or a minus sign, and a
    digit comes after the sign. *)
Lemma encode_int_head (z : Z) :
  exists c r, encode_int z = String c r
    /\ (is_digit c = true
        \/ (c = "-"%char /\ exists d r', r = String d r' /\ is_digit d = true)).
Proof.
  pose proof string_of_uint_head as P.
  unfold encode_int. destruct z as [|p|p]; cbn [Z.to_int NilEmpty.string_of_int].
  - exists "0"%char, EmptyString. split; [reflexivity | now left].
  - destruct (P p) as (c & r & -> & D). exists c, r. split; [reflexivity | now left].
  - destruct (P p) as (c & r & -> & D). eexists; eexists. split; [reflexivity|].
    right. split; [reflexivity|]. now exists c, r.
Qed.

Lemma is_digit_range (c : ascii) : is_digit c = true <-> 48 <= nat_of_ascii c <= 57.
Proof. unfold is_digit. rewrite andb_true_iff, !Nat.leb_le. reflexivity. Qed.

Lemma after_prefix_head (k : ascii) (p : string) (c : ascii) (r : string) :
  Ascii.eqb k c = false -> after_prefix (String k p) (String c r) = None.
Proof. intros E. simpl. now rewrite E. Qed.

Lemma digit_differs (k c : ascii) :
  is_digit c = true -> is_digit k = false -> Ascii.eqb k c = false.
Proof. intros D K. destruct (Ascii.eqb_spec k c) as [-> | N]; congruence. Qed.

Lemma scan_atom_int (z : Z) (rest : string) :
  closes_number rest = true -> scan_atom (encode_int z ++ rest) = Parsed (VInt z) rest.
Proof.
  intros C. unfold scan_atom. rewrite (scan_number_int z rest C).
  destruct (encode_int_head z) as (c & r & -> & [D | (-> & d & r' & -> & D)]);
    cbn [append].
  - rewrite !after_prefix_head by (now apply digit_differs).
    reflexivity.
  - rewrite !(after_prefix_head _ _ "-") by reflexivity.
    cbn [after_prefix]. change (Ascii.eqb "-" "-") with true. cbv iota.
    rewrite (digit_differs "I" d D eq_refl). reflexivity.
Qed.

Lemma scan_once_int (z : Z) (rest : string) (f : nat) :
  closes_number rest = true ->
  scan_once (S f) (encode_int z ++ rest) = Parsed (VInt z) rest.
Proof.
  intros C. pose proof (scan_atom_int z rest C) as A.
  destruct (encode_int_head z) as (c & r & E & H). rewrite E in *.
  cbn [append] in *. cbn [scan_once].
  assert (Ascii.eqb c dquote = false /\ Ascii.eqb c "{" = false
          /\ Ascii.eqb c "[" = false) as (-> & -> & ->); [|exact A].
  destruct H as [D | (-> & _)]; [|now repeat split].
  repeat split; rewrite Ascii.eqb_sym; now apply digit_differs.
Qed.

(** *** JSON text: what is written reads back *)

Lemma skip_ws_head (c : ascii) (r : string) :
  is_ws c = false -> skip_ws (String c r) = String c r.
Proof. intros H. unfold skip_ws. simpl. now rewrite H. Qed.

Lemma skip_ws_space (r : string) : skip_ws (String " " r) = skip_ws r.
Proof. reflexivity. Qed.

Lemma skip_ws_spaces (n : nat) (t : string) : skip_ws (spaces n ++ t) = skip_ws t.
Proof. induction n as [|n IH]; simpl; [reflexivity|]. now rewrite skip_ws_space. Qed.

Lemma skip_ws_indent (k : nat) (t : string) :
  skip_ws (newline_indent k ++ t) = skip_ws t.
Proof.
  unfold newline_indent. rewrite append_assoc.
  change (skip_ws (spaces (2 * k) ++ t) = skip_ws t).
  apply skip_ws_spaces.
Qed.

Lemma scan_once_more_fuel (f f' : nat) (s : string) (v : value) (rest : string) :
  f <= f' -> scan_once f s = Parsed v rest -> scan_once f' s = Parsed v rest.
Proof.
  intros L E. rewrite <- E. apply (scan_fuel_mono f); [exact L | now rewrite E].
Qed.

Lemma scan_elems_more_fuel (f f' : nat) (s : string) (vs : list value) (rest : string) :
  f <= f' -> scan_elems f s = Parsed vs rest -> scan_elems f' s = Parsed vs rest.
Proof.
  intros L E. rewrite <- E. apply (scan_fuel_mono f); [exact L | now rewrite E].
Qed.

Lemma scan_members_more_fuel (f f' : nat) (s : string)
    (ms : list (string * value)) (rest : string) :
  f <= f' -> scan_members f s = Parsed ms rest -> scan_members f' s = Parsed ms rest.
Proof.
  intros L E. rewrite <- E. apply (scan_fuel_mono f); [exact L | now rewrite E].
Qed.

Lemma join_cons_app (sep a : string) (l : list string) (t : string) :
  join sep (a :: l) ++ t
  = a ++ match l with [] => t | _ :: _ => sep ++ join sep l ++ t end.
Proof.
  destruct l as [|b l]; [reflexivity|].
  change (join sep (a :: b :: l)) with (a ++ sep ++ join sep (b :: l)).
  now rewrite !append_assoc.
Qed.

(** The text of a value, whatever follows it, starts with a character that
    is neither whitespace nor a closing bracket. *)
Lemma encode_head (v : value) (level : nat) (rest : string) :
  dumpable v = true ->
  exists c r, encode level v ++ rest = String c r
              /\ is_ws c = false /\ Ascii.eqb c "]" = false.
Proof.
  destruct v as [| [] | z | | | [|x l] | [|kv d]]; simpl; try discriminate;
    intros _;
    try (eexists; eexists; (split; [reflexivity|split; reflexivity])).
  destruct (encode_int_head z) as (c & r & -> & H).
  exists c, (r ++ rest). split; [reflexivity|].
  assert (is_digit c = true \/ c = "-"%char) as [D | ->]
    by (destruct H as [D | [-> _]]; auto); [|now split].
  split.
  - destruct (is_ws c) eqn:W; [|reflexivity]. exfalso.
    destruct c as [[] [] [] [] [] [] [] []];
      first [discriminate W | vm_compute in D; discriminate D].
  - rewrite Ascii.eqb_sym. now apply digit_differs.
Qed.

Lemma skip_ws_encode (v : value) (level : nat) (rest : string) :
  dumpable v = true -> skip_ws (encode level v ++ rest) = encode level v ++ rest.
Proof.
  intros T. destruct (encode_head v level rest T) as (c & r & -> & W & _).
  now apply skip_ws_head.
Qed.

Lemma distinct_NoDup (l : list string) : distinct l = true <-> NoDup l.
Proof.
  induction l as [|x l IH]; simpl.
  - split; [constructor | reflexivity].
  - rewrite andb_true_iff, negb_true_iff, IH. split.
    + intros [N D]. constructor; [|exact D].
      intros I. assert (existsb (String.eqb x) l = true) as E
        by (apply existsb_exists; exists x; split; [exact I | apply String.eqb_refl]).
      congruence.
    + intros D. inversion D as [|? ? N D']; subst. split; [|exact D'].
      destruct (existsb (String.eqb x) l) eqn:E; [|reflexivity].
      apply existsb_exists in E as (y & I & Y). apply String.eqb_eq in Y.
      subst. now elim N.
Qed.

Lemma dict_set_fresh (k : string) (v : value) (d : dict) :
  ~ In k (map fst d) -> dict_set k v d = (d ++ [(k, v)])%list.
Proof.
  induction d as [|[k' v'] d IH]; simpl; [reflexivity|].
  intros N. destruct (String.eqb_spec k k') as [->|_].
  - elim N. now left.
  - f_equal. apply IH. intros I. apply N. now right.
Qed.

Lemma dict_of_pairs_fold (pairs acc : list (string * value)) :
  NoDup (map fst (acc ++ pairs)%list) ->
  fold_left (fun d kv => dict_set (fst kv) (snd kv) d) pairs acc
  = (acc ++ pairs)%list.
Proof.
  revert acc; induction pairs as [|[k v] ps IH]; intros acc D; simpl.
  - now rewrite app_nil_r.
  - rewrite dict_set_fresh.
    + rewrite IH; rewrite <- app_assoc; [reflexivity | exact D].
    + rewrite map_app in D. simpl in D. apply NoDup_remove_2 in D.
      intros I. apply D. apply in_or_app. now left.
Qed.

(** A dict built from pairs whose keys differ is the list of those pairs. *)
Lemma dict_of_pairs_distinct (d : list (string * value)) :
  distinct (map fst d) = true -> dict_of_pairs d = d.
Proof.
  intros D. apply distinct_NoDup in D. unfold dict_of_pairs.
  now rewrite dict_of_pairs_fold.
Qed.

Lemma scan_elems_last (f : nat) (s : string) (v : value) (rest0 r : string) :
  scan_once f s = Parsed v rest0 -> skip_ws rest0 = String "]" r ->
  scan_elems (S f) s = Parsed [v] r.
Proof. intros O W. simpl. now rewrite O, W. Qed.

Lemma scan_elems_next (f : nat) (s : string) (v : value) (rest0 r : string)
    (vs : list value) (rest : string) :
  scan_once f s = Parsed v rest0 -> skip_ws rest0 = String "," r ->
  scan_elems f (skip_ws r) = Parsed vs rest ->
  scan_elems (S f) s = Parsed (v :: vs) rest.
Proof. intros O W E. simpl. now rewrite O, W, E. Qed.

Lemma scan_members_last (f : nat) (s key r0 r : string) (v : value) (r1 r2 : string) :
  scanstring s = Parsed key r0 -> skip_ws r0 = String ":" r ->
  scan_once f (skip_ws r) = Parsed v r1 -> skip_ws r1 = String "}" r2 ->
  scan_members (S f) s = Parsed [(key, v)] r2.
Proof. intros K W O W1. simpl. now rewrite K, W, O, W1. Qed.

Lemma scan_members_next (f : nat) (s key r0 r : string) (v : value)
    (r1 r2 r3 : string) (ms : list (string * value)) (rest : string) :
  scanstring s = Parsed key r0 -> skip_ws r0 = String ":" r ->
  scan_once f (skip_ws r) = Parsed v r1 -> skip_ws r1 = String "," r2 ->
  skip_ws r2 = String dquote r3 ->
  scan_members f r3 = Parsed ms rest ->
  scan_members (S f) s = Parsed ((key, v) :: ms) rest.
Proof. intros K W O W1 W2 M. simpl. now rewrite K, W, O, W1, W2, M. Qed.

(** The elements of a list, as [encode] lays them out, read back. *)
Lemma scan_elems_join (level : nat) (l : list value) :
  l <> [] ->
  Forall (fun v => dumpable v = true ->
            forall lvl rest, closes_number rest = true -> exists f,
              scan_once f (encode lvl v ++ rest) = Parsed v rest) l ->
  forallb dumpable l = true ->
  forall rest, exists f,
    scan_elems f
      (join ("," ++ newline_indent (S level)) (map (encode (S level)) l)
         ++ newline_indent level ++ "]" ++ rest)
    = Parsed l rest.
Proof.
  induction l as [|x l IH]; [congruence|].
  intros _ A T rest. inversion A as [|? ? Hx Hl]; subst.
  simpl in T. apply andb_true_iff in T as [Tx Tl].
  rewrite map_cons, join_cons_app.
  destruct l as [|y l'].
  - destruct (Hx Tx (S level) (newline_indent level ++ "]" ++ rest) eq_refl) as [f O].
    exists (S f). eapply scan_elems_last; [exact O|].
    now rewrite skip_ws_indent.
  - destruct (IH ltac:(discriminate) Hl Tl rest) as [f2 E].
    set (tail := join ("," ++ newline_indent (S level))
                   (map (encode (S level)) (y :: l'))
                 ++ newline_indent level ++ "]" ++ rest) in *.
    change (map (encode (S level)) (y :: l'))
      with (encode (S level) y :: map (encode (S level)) l') in *.
    cbv iota. rewrite append_assoc. fold tail.
    destruct (Hx Tx (S level) ("," ++ newline_indent (S level) ++ tail) eq_refl)
      as [f1 O].
    exists (S (Nat.max f1 f2)).
    eapply scan_elems_next.
    + eapply scan_once_more_fuel; [|exact O]. lia.
    + reflexivity.
    + rewrite skip_ws_indent.
      assert (skip_ws tail = tail) as ->.
      { unfold tail. rewrite join_cons_app.
        simpl in Tl. apply andb_true_iff in Tl as [Ty _].
        now apply skip_ws_encode. }
      eapply scan_elems_more_fuel; [|exact E]. lia.
Qed.
(** The members of a dict, as [encode] lays them out, read back; the text
    starts after the opening quote of the first key. *)
Lemma scan_members_join (level : nat) (d : list (string * value)) :
  d <> [] ->
  Forall (fun kv => dumpable (snd kv) = true ->
            forall lvl rest, closes_number rest = true -> exists f,
              scan_once f (encode lvl (snd kv) ++ rest) = Parsed (snd kv) rest) d ->
  forallb (fun kv => dumpable (snd kv)) d = true ->
  forall rest, exists f t,
    join ("," ++ newline_indent (S level))
      (map (fun kv => encode_str (fst kv) ++ ": " ++ encode (S level) (snd kv)) d)
      ++ newline_indent level ++ "}" ++ rest
    = String dquote t
    /\ scan_members f t = Parsed d rest.
Proof.
  induction d as [|[k v] d IH]; [congruence|].
  intros _ A T rest. inversion A as [|? ? Hx Hl]; subst. simpl in Hx.
  simpl in T. apply andb_true_iff in T as [Tx Tl].
  rewrite map_cons, join_cons_app. cbn [fst snd].
  unfold encode_str at 1. rewrite !append_assoc.
  destruct d as [|kv' d'].
  - destruct (Hx Tx (S level) (newline_indent level ++ "}" ++ rest) eq_refl) as [f O].
    exists (S f). eexists. split; [reflexivity|].
    eapply scan_members_last.
    + apply scanstring_escape.
    + reflexivity.
    + rewrite skip_ws_space, skip_ws_encode by exact Tx. exact O.
    + now rewrite skip_ws_indent.
  - destruct (IH ltac:(discriminate) Hl Tl rest) as (f2 & t2 & E2 & M).
    cbv iota. rewrite E2.
    destruct (Hx Tx (S level)
                (("," ++ newline_indent (S level)) ++ String dquote t2) eq_refl)
      as [f1 O].
    exists (S (Nat.max f1 f2)). eexists. split; [reflexivity|].
    eapply scan_members_next.
    + apply scanstring_escape.
    + reflexivity.
    + rewrite skip_ws_space, skip_ws_encode by exact Tx.
      eapply scan_once_more_fuel; [|exact O]. lia.
    + rewrite append_assoc. reflexivity.
    + rewrite skip_ws_indent. reflexivity.
    + eapply scan_members_more_fuel; [|exact M]. lia.
Qed.

Lemma scan_once_list (f : nat) (r : string) (c1 : ascii) (r1 : string) :
  skip_ws r = String c1 r1 -> Ascii.eqb c1 "]" = false ->
  scan_once (S f) (String "[" r)
  = match scan_elems f (String c1 r1) with
    | Parsed values rest => Parsed (VList values) rest
    | Malformed => Malformed
    | Beyond => Beyond
    | NoFuel => NoFuel
    end.
Proof. intros W N. simpl. now rewrite W, N. Qed.

Lemma scan_once_dict (f : nat) (r r1 : string) :
  skip_ws r = String dquote r1 ->
  scan_once (S f) (String "{" r)
  = match scan_members f r1 with
    | Parsed pairs rest => Parsed (VDict (dict_of_pairs pairs)) rest
    | Malformed => Malformed
    | Beyond => Beyond
    | NoFuel => NoFuel
    end.
Proof. intros W. simpl. now rewrite W. Qed.

(** With fuel enough, the text of a value without floats and repeated
    keys scans as that value and leaves what followed it. *)
Lemma scan_encode (v : value) :
  dumpable v = true ->
  forall level rest, closes_number rest = true ->
    exists f, scan_once f (encode level v ++ rest) = Parsed v rest.
Proof.
  induction v as [| b | z | lit | s | l IH | d IH] using value_ind;
    intros T level rest C; try discriminate.
  - exists 1. reflexivity.
  - exists 1. destruct b; reflexivity.
  - exists 1. now apply scan_once_int.
  - exists 1. cbn [encode]. unfold encode_str. rewrite !append_assoc.
    change (DQ ++ escape s ++ DQ ++ rest)
      with (String dquote (escape s ++ DQ ++ rest)).
    cbn [scan_once]. cbv beta iota. simpl Ascii.eqb.
    now rewrite scanstring_escape.
  - destruct l as [|x l]; [exists 1; reflexivity|].
    simpl in T.
    destruct (scan_elems_join level (x :: l) ltac:(discriminate) IH T rest)
      as [f E].
    exists (S f).
    change (encode level (VList (x :: l)))
      with ("[" ++ newline_indent (S level)
              ++ join ("," ++ newline_indent (S level))
                   (map (encode (S level)) (x :: l))
              ++ newline_indent level ++ "]").
    rewrite !append_assoc.
    change ("[" ++ ?t) with (String "[" t).
    remember (join _ _ ++ _) as body eqn:B.
    assert (exists c r, body = String c r /\ is_ws c = false
                        /\ Ascii.eqb c "]" = false) as (c & r & Eb & W & N).
    { subst body. rewrite map_cons, join_cons_app.
      apply andb_true_iff in T as [Tx _]. now apply encode_head. }
    rewrite (scan_once_list f _ c r); [| | exact N].
    + rewrite <- Eb, E. reflexivity.
    + rewrite skip_ws_indent, Eb. now apply skip_ws_head.
  - destruct d as [|kv d]; [exists 1; reflexivity|].
    simpl in T. apply andb_true_iff in T as [D T].
    destruct (scan_members_join level (kv :: d) ltac:(discriminate) IH T rest)
      as (f & t & Et & M).
    exists (S f).
    change (encode level (VDict (kv :: d)))
      with ("{" ++ newline_indent (S level)
              ++ join ("," ++ newline_indent (S level))
                   (map (fun kv => encode_str (fst kv) ++ ": "
                                     ++ encode (S level) (snd kv)) (kv :: d))
              ++ newline_indent level ++ "}").
    rewrite !append_assoc.
    change ("{" ++ ?t) with (String "{" t).
    rewrite Et, (scan_once_dict f _ t).
    + rewrite M. now rewrite (dict_of_pairs_distinct (kv :: d)).
    + rewrite skip_ws_indent. now apply skip_ws_head.
Qed.

(** Reading what was written: [json.loads(json.dumps(v))] is [v], for every
    value made of strings, integers, constants, lists and dicts with
    different keys. *)
Lemma json_loads_dumps (v : value) :
  dumpable v = true -> json_loads (json_dumps v) = Ok v.
Proof.
  intros T. unfold json_loads, json_dumps.
  set (s := encode 0 v).
  destruct (scan_encode v T 0 EmptyString eq_refl) as [f O].
  rewrite append_nil_r in O. fold s in O.
  assert (skip_ws s = s) as ->.
  { unfold s. rewrite <- (append_nil_r (encode 0 v)). now apply skip_ws_encode. }
  set (F := 2 * String.length s + 1).
  assert (scan_once F s <> NoFuel) as N by (apply scan_fuel_suffices; lia).
  assert (scan_once F s = Parsed v EmptyString) as ->.
  { destruct (Nat.le_ge_cases f F) as [L | L].
    - now apply (scan_once_more_fuel f F).
    - rewrite <- O. symmetry. now apply (scan_fuel_mono F). }
  reflexivity.
Qed.

(** *** JSON text: the keys of what was read *)

Lemma dict_set_keys (k : string) (v : value) (d : dict) :
  map fst (dict_set k v d)
  = if existsb (String.eqb k) (map fst d) then map fst d else (map fst d ++ [k])%list.
Proof.
  induction d as [|[k' v'] d IH]; simpl; [reflexivity|].
  destruct (String.eqb k k'); simpl; [reflexivity|].
  rewrite IH. now destruct (existsb (String.eqb k) (map fst d)).
Qed.

Lemma dict_set_distinct (k : string) (v : value) (d : dict) :
  NoDup (map fst d) -> NoDup (map fst (dict_set k v d)).
Proof.
  intros D. rewrite dict_set_keys.
  destruct (existsb (String.eqb k) (map fst d)) eqn:E; [exact D|].
  apply NoDup_app; [exact D | repeat constructor; intros [] |].
  intros x I [-> | []].
  assert (existsb (String.eqb x) (map fst d) = true) as T
    by (apply existsb_exists; exists x; split; [exact I | apply String.eqb_refl]).
  congruence.
Qed.

Lemma dict_set_all (P : value -> bool) (k : string) (v : value) (d : dict) :
  P v = true -> forallb (fun kv => P (snd kv)) d = true ->
  forallb (fun kv => P (snd kv)) (dict_set k v d) = true.
Proof.
  intros Pv. induction d as [|[k' v'] d IH]; simpl; [now rewrite Pv|].
  intros A. apply andb_true_iff in A as [A1 A2].
  destruct (String.eqb k k'); simpl; [now rewrite Pv, A2|].
  now rewrite A1, IH.
Qed.

Lemma dict_of_pairs_all (P : value -> bool) (pairs : list (string * value)) :
  forallb (fun kv => P (snd kv)) pairs = true ->
  NoDup (map fst (dict_of_pairs pairs))
  /\ forallb (fun kv => P (snd kv)) (dict_of_pairs pairs) = true.
Proof.
  unfold dict_of_pairs.
  assert (forall acc,
            NoDup (map fst acc) -> forallb (fun kv => P (snd kv)) acc = true ->
            forallb (fun kv => P (snd kv)) pairs = true ->
            NoDup (map fst (fold_left (fun d kv => dict_set (fst kv) (snd kv) d) pairs acc))
            /\ forallb (fun kv => P (snd kv))
                 (fold_left (fun d kv => dict_set (fst kv) (snd kv) d) pairs acc) = true)
    as G.
  { induction pairs as [|[k v] ps IH]; intros acc D A H; simpl; [now split|].
    simpl in H. apply andb_true_iff in H as [H1 H2].
    apply IH; [now apply dict_set_distinct | now apply dict_set_all | exact H2]. }
  intros H. apply G; [constructor | reflexivity | exact H].
Qed.

Lemma scan_atom_keys_distinct (s : string) (v : value) (rest : string) :
  scan_atom s = Parsed v rest -> keys_distinct v = true.
Proof.
  unfold scan_atom.
  repeat match goal with
  | |- context [after_prefix ?p s] =>
      destruct (after_prefix p s); [now intros [= <- _]|]
  end.
  unfold scan_number.
  destruct (scan_integer s) as [[[neg ds] r]|]; [|discriminate].
  destruct (scan_fraction r) as [frac r1]. destruct (scan_exponent r1) as [exp r2].
  destruct (is_empty frac && is_empty exp)%bool; now intros [= <- _].
Qed.

(** What the scanner builds has no key twice in a dict. *)
Lemma scan_keys_distinct (f : nat) :
  (forall s v rest, scan_once f s = Parsed v rest -> keys_distinct v = true)
  /\ (forall s vs rest, scan_elems f s = Parsed vs rest ->
        forallb keys_distinct vs = true)
  /\ (forall s ms rest, scan_members f s = Parsed ms rest ->
        forallb (fun kv => keys_distinct (snd kv)) ms = true).
Proof.
  induction f as [|n (IHo & IHe & IHm)]; [repeat split; discriminate|].
  repeat apply conj.
  - intros [|c r] v rest; simpl; [discriminate|].
    destruct (Ascii.eqb c dquote).
    { destruct (scanstring r) as [x rest'| | |]; try discriminate.
      now intros [= <- _]. }
    destruct (Ascii.eqb c "{").
    { destruct (skip_ws r) as [|c1 r1]; [discriminate|].
      destruct (Ascii.eqb c1 "}"); [now intros [= <- _]|].
      destruct (Ascii.eqb c1 dquote); [|discriminate].
      destruct (scan_members n r1) as [ms rest'| | |] eqn:M; try discriminate.
      intros [= <- _]. apply IHm in M.
      destruct (dict_of_pairs_all keys_distinct ms M) as [D A].
      simpl. apply andb_true_iff. split; [now apply distinct_NoDup | exact A]. }
    destruct (Ascii.eqb c "[").
    { destruct (skip_ws r) as [|c1 r1]; [discriminate|].
      destruct (Ascii.eqb c1 "]"); [now intros [= <- _]|].
      destruct (scan_elems n (String c1 r1)) as [vs rest'| | |] eqn:E;
        try discriminate.
      intros [= <- _]. now apply IHe in E. }
    apply scan_atom_keys_distinct.
  - intros s vs rest; simpl.
    destruct (scan_once n s) as [v r0| | |] eqn:O; try discriminate.
    apply IHo in O.
    destruct (skip_ws r0) as [|c r]; [discriminate|].
    destruct (Ascii.eqb c "]"); [intros [= <- _]; simpl; now rewrite O|].
    destruct (Ascii.eqb c ","); [|discriminate].
    destruct (scan_elems n (skip_ws r)) as [vs' rest'| | |] eqn:E;
      try discriminate.
    intros [= <- _]. apply IHe in E. simpl. now rewrite O, E.
  - intros s ms rest; simpl.
    destruct (scanstring s) as [key r0| | |]; try discriminate.
    destruct (skip_ws r0) as [|c r]; [discriminate|].
    destruct (Ascii.eqb c ":"); [|discriminate].
    destruct (scan_once n (skip_ws r)) as [v r1| | |] eqn:O; try discriminate.
    apply IHo in O.
    destruct (skip_ws r1) as [|c1 r2]; [discriminate|].
    destruct (Ascii.eqb c1 "}"); [intros [= <- _]; simpl; now rewrite O|].
    destruct (Ascii.eqb c1 ","); [|discriminate].
    destruct (skip_ws r2) as [|c2 r3]; [discriminate|].
    destruct (Ascii.eqb c2 dquote); [|discriminate].
    destruct (scan_members n r3) as [ms' rest'| | |] eqn:M; try discriminate.
    intros [= <- _]. apply IHm in M. simpl. now rewrite O, M.
Qed.

Lemma json_loads_keys_distinct (s : string) (v : value) :
  json_loads s = Ok v -> keys_distinct v = true.
Proof.
  unfold json_loads.
  destruct (scan_once _ _) as [v' rest| | |] eqn:O; try discriminate.
  destruct (is_empty (skip_ws rest)); [|discriminate].
  intros [= <-]. now apply (proj1 (scan_keys_distinct _)) in O.
Qed.

Lemma dumpable_spec (v : value) :
  dumpable v = true <-> float_free v = true /\ keys_distinct v = true.
Proof.
  induction v as [| b | z | lit | s | l IH | d IH] using value_ind; simpl;
    try (split; [now split | reflexivity]).
  - split; [discriminate | now intros [? _]].
  - rewrite !forallb_forall. rewrite Forall_forall in IH. split.
    + intros A. split; intros x I; now apply IH, A.
    + intros [A B] x I. apply IH; [exact I|]. split; [now apply A | now apply B].
  - rewrite !andb_true_iff, !forallb_forall. rewrite Forall_forall in IH. split.
    + intros [D A]. split; [|split; [exact D|]]; intros x I; now apply IH, A.
    + intros [A [D B]]. split; [exact D|]. intros x I.
      apply IH; [exact I|]. split; [now apply A | now apply B].
Qed.

Lemma textual_dumpable (v : value) : textual v = true -> dumpable v = true.
Proof.
  induction v as [| b | z | lit | s | l IH | d IH] using value_ind; simpl;
    try reflexivity; try discriminate.
  - rewrite !forallb_forall. rewrite Forall_forall in IH. intros A x I. now apply IH, A.
  - rewrite !andb_true_iff, !forallb_forall. rewrite Forall_forall in IH.
    intros [D A]. split; [exact D|]. intros x I. now apply IH, A.
Qed.

(** *** Saving and adding *)

Lemma stored_quote_record (quote author : string) :
  stored_quote (quote_record quote author).
Proof. split; [now exists quote, author | reflexivity]. Qed.

Lemma textual_store (quotes : list value) :
  Forall stored_quote quotes -> textual (VList quotes) = true.
Proof.
  intros A. simpl. apply forallb_forall. intros v I.
  rewrite Forall_forall in A. now apply A.
Qed.


(** The records of a store that was loaded have no key twice. *)
Lemma load_quotes_keys_distinct (w w1 : world) (l : list value) :
  load_quotes w = (Ok l, w1) -> keys_distinct (VList l) = true.
Proof.
  destruct w as [d out lg]. unfold load_quotes. run. simpl.
  destruct d as [| | |s]; try discriminate.
  - now intros [= <- _].
  - destruct (json_loads s) as [v|e|] eqn:J; [| |discriminate].
    + apply json_loads_keys_distinct in J.
      destruct v; intros [= <- _]; try reflexivity. exact J.
    + destruct e; try discriminate; now intros [= <- _].
Qed.

Lemma save_quotes_writes (quotes : list value) (w : world) :
  float_free (VList quotes) = true -> disk w <> Locked ->
  save_quotes quotes w
  = (Ok tt, {| disk := Text (json_dumps (VList quotes));
               sent := sent w; logged := logged w |}).
Proof.
  intros F. unfold save_quotes, dumped, bind, lift, write_text. rewrite F.
  destruct (disk w); congruence.
Qed.

(** A save that goes through was of a store without floats, and wrote its
    text. *)
Lemma save_quotes_done (quotes : list value) (w w2 : world) :
  save_quotes quotes w = (Ok tt, w2) ->
  float_free (VList quotes) = true
  /\ w2 = {| disk := Text (json_dumps (VList quotes));
             sent := sent w; logged := logged w |}.
Proof.
  unfold save_quotes, dumped, bind, lift, write_text.
  destruct (float_free (VList quotes)); [|discriminate].
  destruct (disk w); try discriminate; now intros [= <-].
Qed.

Lemma load_quotes_of_dumps (quotes : list value) (out : list reply) (lg : list string) :
  dumpable (VList quotes) = true ->
  load_quotes {| disk := Text (json_dumps (VList quotes)); sent := out; logged := lg |}
  = (Ok quotes,
     {| disk := Text (json_dumps (VList quotes)); sent := out; logged := lg |}).
Proof.
  intros T. unfold load_quotes. run. simpl.
  now rewrite (json_loads_dumps (VList quotes) T).
Qed.

(** C8.  Round trip: saving a sequence of quote records and loading it
    again gives the same sequence, in the same order, with the same
    fields; the save itself succeeds on any file the process can open,
    and sends and logs nothing. *)
Theorem save_then_load (quotes : list value) (w : world) :
  Forall stored_quote quotes -> disk w <> Locked ->
  exists w1,
    save_quotes quotes w = (Ok tt, w1)
    /\ load_quotes w1 = (Ok quotes, w1)
    /\ sent w1 = sent w /\ logged w1 = logged w.
Proof.
  intros A N.
  pose proof (textual_dumpable _ (textual_store _ A)) as T.
  eexists. split; [apply save_quotes_writes; [now apply dumpable_spec | exact N]|].
  split; [|split; reflexivity].
  now apply load_quotes_of_dumps.
Qed.

Lemma save_then_load_witness :
  exists w1,
    save_quotes [quote_record "T1" "Lao Tzu"; quote_record "T2" "Confucius"]
      (fresh Missing) = (Ok tt, w1)
    /\ load_quotes w1
       = (Ok [quote_record "T1" "Lao Tzu"; quote_record "T2" "Confucius"], w1)
    /\ sent w1 = sent (fresh Missing) /\ logged w1 = logged (fresh Missing).
Proof.
  apply (save_then_load [quote_record "T1" "Lao Tzu"; quote_record "T2" "Confucius"]
           (fresh Missing)).
  - repeat constructor; apply stored_quote_record.
  - discriminate.
Defined.



(** *** Sorting strings *)

Lemma compare_refl (a : string) : String.compare a a = Eq.
Proof.
  induction a as [|x a IH]; simpl; [reflexivity|].
  unfold Ascii.compare. now rewrite N.compare_refl.
Qed.

Lemma compare_lt_trans (a b c : string) :
  String.compare a b = Lt -> String.compare b c = Lt -> String.compare a c = Lt.
Proof.
  revert b c; induction a as [|x a IH]; intros [|y b] [|z c]; simpl;
    try congruence.
  unfold Ascii.compare.
  destruct (N.compare_spec (N_of_ascii x) (N_of_ascii y)) as [Exy|Lxy|Gxy];
    try discriminate;
    destruct (N.compare_spec (N_of_ascii y) (N_of_ascii z)) as [Eyz|Lyz|Gyz];
    try discriminate; intros H1 H2.
  - rewrite Exy, Eyz, N.compare_refl. now apply (IH b c).
  - rewrite Exy. now apply N.compare_lt_iff in Lyz as ->.
  - rewrite <- Eyz. now apply N.compare_lt_iff in Lxy as ->.
  - assert (N_of_ascii x < N_of_ascii z)%N as L by lia.
    now apply N.compare_lt_iff in L as ->.
Qed.

Lemma leb_lteq (a b : string) :
  String.leb a b = true <-> a = b \/ String.ltb a b = true.
Proof.
  unfold String.leb, String.ltb. split.
  - destruct (String.compare a b) eqn:C; try discriminate; intros _.
    + left. now apply String.compare_eq_iff.
    + now right.
  - intros [-> | L].
    + now rewrite compare_refl.
    + now destruct (String.compare a b).
Qed.

Lemma ltb_trans (a b c : string) :
  String.ltb a b = true -> String.ltb b c = true -> String.ltb a c = true.
Proof.
  unfold String.ltb.
  destruct (String.compare a b) eqn:C1; try discriminate.
  destruct (String.compare b c) eqn:C2; try discriminate.
  now rewrite (compare_lt_trans a b c C1 C2).
Qed.

Lemma leb_trans (a b c : string) :
  String.leb a b = true -> String.leb b c = true -> String.leb a c = true.
Proof.
  rewrite !leb_lteq. intros [-> | L1] [-> | L2]; auto.
  right. now apply (ltb_trans a b c).
Qed.

Lemma insert_In (a x : string) (l : list string) :
  In a (insert x l) <-> a = x \/ In a l.
Proof.
  induction l as [|y l IH]; simpl; [intuition|].
  destruct (String.leb x y); simpl; rewrite ?IH; intuition.
Qed.

Lemma sorted_In (a : string) (l : list string) : In a (sorted l) <-> In a l.
Proof.
  induction l as [|x l IH]; simpl; [reflexivity|].
  rewrite insert_In, IH. intuition.
Qed.

Lemma insert_NoDup (x : string) (l : list string) :
  ~ In x l -> NoDup l -> NoDup (insert x l).
Proof.
  induction l as [|y l IH]; simpl; intros N D.
  - constructor; [easy | constructor].
  - destruct (String.leb x y).
    + constructor; [exact N | exact D].
    + inversion D as [|? ? Ny Dl]; subst.
      constructor.
      * rewrite insert_In. intros [-> | I]; [apply N; now left | easy].
      * apply IH; [intros I; apply N; now right | exact Dl].
Qed.

Lemma sorted_NoDup (l : list string) : NoDup l -> NoDup (sorted l).
Proof.
  induction 1 as [|x l N D IH]; simpl; [constructor|].
  apply insert_NoDup; [now rewrite sorted_In | exact IH].
Qed.

Lemma insert_ordered (x : string) (l : list string) :
  StronglySorted (fun a b => String.leb a b = true) l ->
  StronglySorted (fun a b => String.leb a b = true) (insert x l).
Proof.
  induction 1 as [|y l S IH A]; simpl.
  - constructor; constructor.
  - destruct (String.leb x y) eqn:L.
    + constructor; [now constructor|].
      constructor; [exact L|].
      rewrite Forall_forall in *. intros z I.
      apply (leb_trans x y z L). now apply A.
    + constructor; [exact IH|].
      rewrite Forall_forall in *. intros z I.
      apply insert_In in I as [-> | I]; [|now apply A].
      destruct (String.leb_total x y); congruence.
Qed.

Lemma sorted_ordered (l : list string) :
  StronglySorted (fun a b => String.leb a b = true) (sorted l).
Proof.
  induction l as [|x l IH]; simpl; [constructor | now apply insert_ordered].
Qed.

Lemma ordered_NoDup_strict (l : list string) :
  StronglySorted (fun a b => String.leb a b = true) l -> NoDup l ->
  StronglySorted (fun a b => String.ltb a b = true) l.
Proof.
  induction 1 as [|x l S IH A]; intros D; [constructor|].
  inversion D as [|? ? N Dl]; subst.
  constructor; [now apply IH|].
  rewrite Forall_forall in *. intros z I.
  destruct (proj1 (leb_lteq x z) (A z I)) as [-> | L]; [now elim N | exact L].
Qed.

(** [sorted(set(l))] on strings: ascending without repetition, with the
    members of [l] and no others. *)
Lemma sorted_nodup_spec (l : list string) :
  StronglySorted (fun a b => String.ltb a b = true) (sorted (nodup string_dec l))
  /\ NoDup (sorted (nodup string_dec l))
  /\ forall a, In a (sorted (nodup string_dec l)) <-> In a l.
Proof.
  assert (NoDup (sorted (nodup string_dec l))) as D
    by apply sorted_NoDup, NoDup_nodup.
  split; [|split; [exact D|]].
  - apply ordered_NoDup_strict; [apply sorted_ordered | exact D].
  - intros a. now rewrite sorted_In, nodup_In.
Qed.

(** *** Listing the authors *)

Lemma author_names_listed (quotes : list value) :
  Forall (fun v => listed_author v <> None) quotes ->
  exists names,
    author_names quotes = Ok (map VStr names)
    /\ map listed_author quotes = map Some names.
Proof.
  induction 1 as [|v quotes Hv A (names & E & M)].
  - now exists [].
  - destruct v as [| | | | | |d]; simpl in Hv; try congruence.
    destruct (dict_lookup "author" d) as [a|] eqn:L.
    + destruct a as [| | | |a| |]; try congruence.
      exists (a :: names). simpl. rewrite L. simpl. rewrite E. simpl.
      now rewrite M.
    + exists ("Unknown" :: names). simpl. rewrite L. simpl. rewrite E. simpl.
      now rewrite M.
Qed.

Lemma as_strings_map (names : list string) : as_strings (map VStr names) = Some names.
Proof. induction names as [|a l IH]; simpl; [reflexivity | now rewrite IH]. Qed.

Lemma In_listed (quotes : list value) (names : list string) (a : string) :
  map listed_author quotes = map Some names ->
  (In a names <-> exists v, In v quotes /\ listed_author v = Some a).
Proof.
  revert names; induction quotes as [|v quotes IH]; intros [|b names] M;
    simpl in M; try discriminate.
  - split; [intros [] | intros (v & [] & _)].
  - injection M as Hv M. specialize (IH names M). simpl. rewrite IH. split.
    + intros [-> | (v' & I & L)]; [exists v; auto | exists v'; auto].
    + intros (v' & [-> | I] & L); [left; congruence | right; now exists v'].
Qed.

(** C7.  For a store of records whose author, when there is one, is a
    string: the reply lists the authors of the records, a record without
    author counting as "Unknown"; each author once, in ascending
    lexicographic order, one bulleted line each.  When there is no author
    to list, the reply says so. *)
Theorem list_authors_sorted_distinct (update : Update) (context : CallbackContext)
    (w w1 : world) (quotes : list value) :
  load_quotes w = (Ok quotes, w1) ->
  Forall (fun v => listed_author v <> None) quotes ->
  exists authors : list string,
    (forall a, In a authors <-> exists v, In v quotes /\ listed_author v = Some a)
    /\ NoDup authors
    /\ StronglySorted (fun a b => String.ltb a b = true) authors
    /\ list_authors update context w
       = (Ok tt,
          replied w1
            (plain
               match authors with
               | [] => "No authors found in the database."
               | _ :: _ =>
                   "Authors available:" ++ NL ++ NL
                     ++ join NL (map (fun a => "- " ++ a) authors)
               end)).
Proof.
  intros L A.
  destruct (author_names_listed quotes A) as (names & E & M).
  destruct (sorted_nodup_spec names) as (S & D & I).
  exists (sorted (nodup string_dec names)).
  split; [|split; [exact D|split; [exact S|]]].
  - intros a. rewrite I. now apply In_listed.
  - unfold list_authors. unfold bind at 1. rewrite L.
    unfold bind, lift. rewrite E. unfold sorted_set. rewrite as_strings_map.
    now destruct (sorted (nodup string_dec names)).
Qed.

Lemma list_authors_sorted_distinct_witness :
  exists authors : list string,
    (forall a, In a authors <->
       exists v, In v authors_sample /\ listed_author v = Some a)
    /\ NoDup authors
    /\ StronglySorted (fun a b => String.ltb a b = true) authors
    /\ list_authors (from_user 1 "/listauthors") (with_args []) (holding authors_sample)
       = (Ok tt,
          replied (holding authors_sample)
            (plain
               match authors with
               | [] => "No authors found in the database."
               | _ :: _ =>
                   "Authors available:" ++ NL ++ NL
                     ++ join NL (map (fun a => "- " ++ a) authors)
               end)).
Proof.
  apply (list_authors_sorted_distinct (from_user 1 "/listauthors") (with_args [])).
  - reflexivity.
  - repeat constructor; discriminate.
Defined.

(** The example of the specification: B, A, A lists as A then B. *)
Example list_authors_example :
  list_authors (from_user 1 "/listauthors") (with_args [])
    (holding [VDict [("author", VStr "B")]; VDict [("author", VStr "A")];
              VDict [("author", VStr "A")]])
  = (Ok tt,
     replied (holding [VDict [("author", VStr "B")]; VDict [("author", VStr "A")];
                       VDict [("author", VStr "A")]])
       (plain ("Authors available:" ++ NL ++ NL ++ "- A" ++ NL ++ "- B"))).
Proof. reflexivity. Qed.

(** *** Looking a quote up by author *)

Lemma ascii_lower_app (a b : string) :
  ascii_lower (a ++ b) = ascii_lower a ++ ascii_lower b.
Proof. induction a as [|c a IH]; simpl; [reflexivity | now rewrite IH]. Qed.

Lemma ascii_lower_split (a x y : string) :
  ascii_lower a = x ++ y ->
  exists a1 a2, a = a1 ++ a2 /\ ascii_lower a1 = x /\ ascii_lower a2 = y.
Proof.
  revert a; induction x as [|c x IH]; intros a E; simpl in E.
  - exists EmptyString, a. now repeat split.
  - destruct a as [|d a]; simpl in E; [discriminate|].
    injection E as Ec E. destruct (IH a E) as (a1 & a2 & -> & L1 & L2).
    exists (String d a1), a2. simpl. now rewrite Ec, L1.
Qed.

Lemma is_upper_range (c : ascii) :
  is_upper c = true <-> 65 <= nat_of_ascii c <= 90.
Proof.
  unfold is_upper. rewrite andb_true_iff, !Nat.leb_le. reflexivity.
Qed.

Lemma nat_of_ascii_inj (c d : ascii) : nat_of_ascii c = nat_of_ascii d -> c = d.
Proof.
  intros E. rewrite <- (ascii_nat_embedding c), <- (ascii_nat_embedding d). now rewrite E.
Qed.

(** Two characters are lowered to the same character exactly when they are
    the same letter. *)
Lemma lower_char_same (c d : ascii) :
  lower_char c = lower_char d <-> same_letter c d.
Proof.
  unfold lower_char, same_letter.
  pose proof (nat_ascii_bounded c) as Bc. pose proof (nat_ascii_bounded d) as Bd.
  destruct (is_upper c) eqn:Uc; destruct (is_upper d) eqn:Ud;
    try apply is_upper_range in Uc; try apply is_upper_range in Ud.
  - split.
    + intros E. apply (f_equal nat_of_ascii) in E.
      rewrite !nat_ascii_embedding in E by lia.
      left. apply nat_of_ascii_inj. lia.
    + intros [-> | [[_ E] | [_ E]]]; [reflexivity | lia | lia].
  - split.
    + intros <-. right; left. split; [reflexivity|].
      rewrite nat_ascii_embedding; lia.
    + intros [-> | [[_ E] | [E _]]]; [| | discriminate].
      * assert (is_upper d = true) by now apply is_upper_range. congruence.
      * rewrite <- E. apply ascii_nat_embedding.
  - split.
    + intros ->. right; right. split; [reflexivity|].
      rewrite nat_ascii_embedding; lia.
    + intros [<- | [[E _] | [_ E]]]; [| discriminate |].
      * assert (is_upper c = true) by now apply is_upper_range. congruence.
      * rewrite <- E. symmetry. apply ascii_nat_embedding.
  - split.
    + intros ->. now left.
    + intros [-> | [[E _] | [E _]]]; [reflexivity | discriminate | discriminate].
Qed.

Lemma ascii_lower_same (s t : string) :
  ascii_lower s = ascii_lower t <-> same_letters s t.
Proof.
  revert t; induction s as [|c s IH]; intros [|d t]; simpl; try (split; [discriminate | tauto]).
  - tauto.
  - rewrite <- IH, <- lower_char_same. split; [intros [= -> ->] | intros [-> ->]]; auto.
Qed.

(** On ASCII text the test of [_find_by_author] finds a stretch of the
    author that is the query up to the case of its letters. *)
Lemma contains_ascii_lower (q a : string) :
  contains (ascii_lower q) (ascii_lower a) = true <-> ci_substring q a.
Proof.
  rewrite contains_spec. unfold ci_substring. split.
  - intros (x & z & E).
    apply ascii_lower_split in E as (pre & rest & -> & _ & E).
    apply ascii_lower_split in E as (mid & post & -> & Lm & _).
    exists pre, mid, post. split; [reflexivity | now apply ascii_lower_same].
  - intros (pre & mid & post & -> & Lm). apply ascii_lower_same in Lm.
    exists (ascii_lower pre), (ascii_lower post). now rewrite !ascii_lower_app, Lm.
Qed.

Lemma ci_match_contains (lower_unicode : string -> string) (q a : string) :
  ci_match lower_unicode q a
  <-> contains (lower lower_unicode q) (lower lower_unicode a) = true.
Proof. unfold ci_match. now rewrite contains_spec. Qed.

Lemma ci_match_ascii (lower_unicode : string -> string) (q a : string) :
  isascii q = true -> isascii a = true ->
  (ci_match lower_unicode q a <-> ci_substring q a).
Proof.
  intros Aq Aa. rewrite ci_match_contains. unfold lower. rewrite Aq, Aa.
  apply contains_ascii_lower.
Qed.

(** On quote records [_find_by_author] is a filter on the author. *)
Lemma find_by_author_filter (lower_unicode : string -> string) (query : string)
    (quotes : list value) :
  Forall is_quote quotes ->
  _find_by_author lower_unicode query quotes
  = Ok (filter
          (fun v =>
             match quote_fields v with
             | Some (_, a) => contains (lower lower_unicode query) (lower lower_unicode a)
             | None => false
             end) quotes).
Proof.
  unfold _find_by_author.
  induction 1 as [|v quotes (t & a & Q) A IH]; [reflexivity|].
  cbn [filter_o filter]. rewrite IH, Q.
  destruct v as [| | | | | |d]; simpl in Q; try discriminate.
  destruct (dict_lookup "text" d) as [[| | | |t'| |]|]; try discriminate.
  destruct (dict_lookup "author" d) as [[| | | |a'| |]|] eqn:L; try discriminate.
  injection Q as -> ->. simpl. rewrite L. simpl.
  now destruct (contains (lower lower_unicode query) (lower lower_unicode a)).
Qed.

Lemma random_choice_In {A : Type} (rnd : nat) (l : list A) :
  l <> [] -> exists x, random_choice rnd l = Ok x /\ In x l.
Proof.
  intros N. unfold random_choice.
  assert (rnd mod List.length l < List.length l) as B.
  { apply Nat.mod_upper_bound. destruct l; [congruence | discriminate]. }
  destruct (nth_error l (rnd mod List.length l)) as [x|] eqn:E.
  - exists x. split; [reflexivity | now apply nth_error_In in E].
  - apply nth_error_None in E. lia.
Qed.

(** Every member can be drawn. *)
Lemma random_choice_any {A : Type} (x : A) (l : list A) :
  In x l -> exists rnd, random_choice rnd l = Ok x.
Proof.
  intros I. apply In_nth_error in I as (n & E).
  exists n. unfold random_choice.
  assert (n < List.length l) as B by (apply nth_error_Some; congruence).
  now rewrite Nat.mod_small, E.
Qed.

Lemma render_quote_fields (v : value) (t a : string) :
  quote_fields v = Some (t, a) -> render_quote v = Ok (quote_card t a).
Proof.
  destruct v as [| | | | | |d]; simpl; try discriminate.
  unfold render_quote, getitem.
  destruct (dict_lookup "text" d) as [[| | | |t'| |]|]; try discriminate.
  destruct (dict_lookup "author" d) as [[| | | |a'| |]|]; try discriminate.
  now intros [= -> ->].
Qed.

(** [quote_cmd] with arguments, on a store that has records. *)
Lemma quote_cmd_search (lower_unicode : string -> string) (rnd : nat)
    (update : Update) (context : CallbackContext) (w w1 : world)
    (quotes candidates : list value) :
  args context <> [] -> quotes <> [] ->
  load_quotes w = (Ok quotes, w1) ->
  _find_by_author lower_unicode (strip (join " " (args context))) quotes = Ok candidates ->
  quote_cmd lower_unicode rnd update context w
  = match candidates with
    | [] => reply_text (NO_MATCH ++ strip (join " " (args context))) None w1
    | _ :: _ =>
        (chosen <- lift (random_choice rnd candidates) ;;
         msg <- lift (render_quote chosen) ;;
         reply_text msg (Some MARKDOWN)) w1
    end.
Proof.
  intros Na Nq L F. unfold quote_cmd. unfold bind at 1. rewrite L.
  destruct quotes as [|q0 qs]; [congruence|].
  destruct (args context) as [|a0 args0] eqn:Ea; [congruence|].
  unfold bind at 1, lift at 1. rewrite F.
  now destruct candidates.
Qed.

(** C1, as the code has it.  With arguments, the query is the arguments
    joined by single spaces and trimmed; the candidates [_find_by_author]
    returns are exactly the stored records whose lowered author contains
    the lowered query, which on ASCII text means that a stretch of the
    author is the query up to the case of its letters.  An empty store is
    answered "No quotes available yet." before any search; a store with
    records and no candidate is answered "No quotes found for author
    matching: " followed by the query; otherwise the reply is the card of
    the candidate that is drawn, and every candidate can be drawn. *)
Theorem quote_cmd_by_author (lower_unicode : string -> string) (rnd : nat)
    (update : Update) (context : CallbackContext) (w w1 : world)
    (quotes : list value) (query : string) :
  args context <> [] ->
  trimmed (join " " (args context)) query ->
  load_quotes w = (Ok quotes, w1) ->
  Forall is_quote quotes ->
  exists candidates : list value,
    _find_by_author lower_unicode query quotes = Ok candidates
    /\ (forall v, In v candidates <->
          In v quotes
          /\ exists t a, quote_fields v = Some (t, a)
                         /\ ci_match lower_unicode query a)
    /\ (forall a, isascii query = true -> isascii a = true ->
          (ci_match lower_unicode query a <-> ci_substring query a))
    /\ (quotes = [] ->
        quote_cmd lower_unicode rnd update context w
        = (Ok tt, replied w1 (plain "No quotes available yet.")))
    /\ (quotes <> [] -> candidates = [] ->
        quote_cmd lower_unicode rnd update context w
        = (Ok tt,
           replied w1 (plain ("No quotes found for author matching: " ++ query))))
    /\ (candidates <> [] ->
        exists v t a,
          In v candidates /\ quote_fields v = Some (t, a)
          /\ quote_cmd lower_unicode rnd update context w
             = (Ok tt, replied w1 (markdown (quote_card t a))))
    /\ (forall v t a,
          In v candidates -> quote_fields v = Some (t, a) ->
          exists draw,
            quote_cmd lower_unicode draw update context w
            = (Ok tt, replied w1 (markdown (quote_card t a)))).
Proof.
  intros Na Tq L A. apply trimmed_strip in Tq.
  pose proof (find_by_author_filter lower_unicode query quotes A) as F.
  set (candidates := filter _ quotes) in F.
  assert (forall v, In v candidates <->
            In v quotes
            /\ exists t a, quote_fields v = Some (t, a)
                           /\ ci_match lower_unicode query a) as Mem.
  { intros v. unfold candidates. rewrite filter_In. split.
    - intros [I C]. split; [exact I|].
      destruct (quote_fields v) as [[t a]|]; [|discriminate].
      exists t, a. split; [reflexivity | now apply ci_match_contains].
    - intros [I (t & a & Q & C)]. split; [exact I|].
      rewrite Q. now apply ci_match_contains. }
  exists candidates. split; [exact F|]. split; [exact Mem|].
  split; [intros a; apply ci_match_ascii|].
  assert (forall draw, quotes <> [] ->
            quote_cmd lower_unicode draw update context w
            = match candidates with
              | [] => reply_text (NO_MATCH ++ query) None w1
              | _ :: _ =>
                  (chosen <- lift (random_choice draw candidates) ;;
                   msg <- lift (render_quote chosen) ;;
                   reply_text msg (Some MARKDOWN)) w1
              end) as Run.
  { intros draw Nq. rewrite Tq in *. now apply quote_cmd_search with quotes. }
  assert (candidates <> [] -> quotes <> []) as Nq.
  { intros Nc ->. now apply Nc. }
  split; [|split; [|split]].
  - intros ->. unfold quote_cmd. unfold bind at 1. now rewrite L.
  - intros Nq' Ec. rewrite (Run rnd Nq'), Ec. reflexivity.
  - intros Nc.
    destruct (random_choice_In rnd candidates Nc) as (v & R & I).
    destruct (proj1 (Mem v) I) as (_ & t & a & Q & _).
    exists v, t, a. split; [exact I|]. split; [exact Q|].
    rewrite (Run rnd (Nq Nc)).
    destruct candidates as [|c0 cs]; [congruence|].
    unfold bind, lift. rewrite R, (render_quote_fields v t a Q). reflexivity.
  - intros v t a I Q.
    destruct (random_choice_any v candidates I) as (draw & R).
    exists draw.
    assert (candidates <> []) as Nc by (intros E; rewrite E in I; destruct I).
    rewrite (Run draw (Nq Nc)).
    destruct candidates as [|c0 cs]; [congruence|].
    unfold bind, lift. rewrite R, (render_quote_fields v t a Q). reflexivity.
Qed.

(** A query that differs from the author in the case of its letters, and
    has whitespace to trim: the one record of Lao Tzu is the reply. *)
Lemma quote_cmd_by_author_witness :
  quote_cmd (fun s => s) 5 (from_user 1 "/quote LAO tzu") (with_args [" LAO"; "tzu "])
    (holding quotes_sample)
  = (Ok tt, replied (holding quotes_sample) (markdown (quote_card "T1" "Lao Tzu"))).
Proof.
  destruct (quote_cmd_by_author (fun s => s) 5 (from_user 1 "/quote LAO tzu")
              (with_args [" LAO"; "tzu "]) (holding quotes_sample)
              (holding quotes_sample) quotes_sample "LAO tzu")
    as (candidates & F & _ & _ & _ & _ & Draw & _).
  - discriminate.
  - apply strip_spec. reflexivity.
  - reflexivity.
  - repeat constructor; eexists; eexists; reflexivity.
  - vm_compute in F. injection F as <-.
    destruct (Draw ltac:(discriminate)) as (v & t & a & I & Q & R).
    destruct I as [<- | []]. injection Q as <- <-. exact R.
Defined.

(** C1 as stated fails on an empty store: the reply is the one for a store
    without quotes, not the one that names the query. *)
Lemma quote_cmd_empty_store_reply :
  quote_cmd (fun s => s) 0 (from_user 1 "/quote ZZZ") (with_args ["ZZZ"]) (holding [])
    = (Ok tt, replied (holding []) (plain "No quotes available yet."))
  /\ "No quotes available yet." <> "No quotes found for author matching: ZZZ".
Proof.
  split; [reflexivity | discriminate].
Qed.

Lemma random_choice_single {A : Type} (rnd : nat) (x : A) :
  random_choice rnd [x] = Ok x.
Proof. unfold random_choice. simpl List.length. now rewrite Nat.mod_1_r. Qed.

(** The examples of the specification: whatever is drawn, and however
    text beyond ASCII is lowered, a query for Lao is answered with the
    quote of Lao Tzu; a query nobody matches is answered with the query
    itself. *)
Example quote_cmd_lao (lower_unicode : string -> string) (rnd : nat) :
  quote_cmd lower_unicode rnd (from_user 1 "/quote Lao") (with_args ["Lao"])
    (holding quotes_sample)
  = (Ok tt, replied (holding quotes_sample) (markdown (quote_card "T1" "Lao Tzu"))).
Proof.
  unfold quote_cmd. unfold bind at 1.
  replace (load_quotes (holding quotes_sample))
    with (Ok quotes_sample, holding quotes_sample) by reflexivity.
  unfold quotes_sample at 1. cbv beta iota.
  unfold with_args. cbn [args]. unfold bind at 1, lift at 1.
  replace (_find_by_author _ _ _)
    with (@Ok (list value) [VDict [("text", VStr "T1"); ("author", VStr "Lao Tzu")]])
    by reflexivity.
  cbv beta iota. unfold bind at 1, lift at 1.
  now rewrite random_choice_single.
Qed.

Example quote_cmd_no_match (lower_unicode : string -> string) :
  quote_cmd lower_unicode 0 (from_user 1 "/quote ZZZ") (with_args ["ZZZ"])
    (holding quotes_sample)
  = (Ok tt, replied (holding quotes_sample)
              (plain "No quotes found for author matching: ZZZ")).
Proof. reflexivity. Qed.

Example quote_cmd_single (lower_unicode : string -> string) (rnd : nat) :
  quote_cmd lower_unicode rnd (from_user 1 "/quote") (with_args [])
    (holding [quote_record "A" "X"])
  = (Ok tt, replied (holding [quote_record "A" "X"]) (markdown (quote_card "A" "X"))).
Proof.
  unfold quote_cmd. unfold bind at 1.
  replace (load_quotes (holding [quote_record "A" "X"]))
    with (Ok [quote_record "A" "X"], holding [quote_record "A" "X"]) by reflexivity.
  cbv beta iota. unfold with_args. cbn [args]. unfold bind at 1, lift at 1.
  now rewrite random_choice_single.
Qed.

(** *** What the commands do to the world *)

Lemma load_quotes_keeps (w : world) :
  disk (snd (load_quotes w)) = disk w /\ sent (snd (load_quotes w)) = sent w.
Proof.
  destruct w as [d out lg]. unfold load_quotes. run. simpl.
  destruct d as [| | |s]; simpl; try (split; reflexivity).
  destruct (json_loads s) as [v|e|]; simpl; try (split; reflexivity).
  - destruct v; split; reflexivity.
  - destruct e; split; reflexivity.
Qed.

Lemma quote_cmd_run (lower_unicode : string -> string) (rnd : nat)
    (update : Update) (context : CallbackContext) (w : world) :
  disk (snd (quote_cmd lower_unicode rnd update context w)) = disk w
  /\ one_reply_or_none w (quote_cmd lower_unicode rnd update context w).
Proof.
  destruct (load_quotes_keeps w) as [D S].
  unfold quote_cmd, one_reply_or_none, bind, lift, reply_text.
  destruct (load_quotes w) as [[quotes|e|] w1]; cbn [fst snd] in *;
    [|now split|now split].
  destruct quotes as [|q0 qs]; [cbn; rewrite D, S; split; eauto|].
  destruct (args context) as [|a0 args0].
  - destruct (random_choice rnd (q0 :: qs)) as [chosen|e|]; [|now split|now split].
    destruct (render_quote chosen) as [msg|e|]; [|now split|now split].
    cbn. rewrite D, S. split; eauto.
  - destruct (_find_by_author _ _ (q0 :: qs)) as [matches|e|]; [|now split|now split].
    destruct matches as [|m0 ms]; [cbn; rewrite D, S; split; eauto|].
    destruct (random_choice rnd (m0 :: ms)) as [chosen|e|]; [|now split|now split].
    destruct (render_quote chosen) as [msg|e|]; [|now split|now split].
    cbn. rewrite D, S. split; eauto.
Qed.

Lemma list_authors_run (update : Update) (context : CallbackContext) (w : world) :
  disk (snd (list_authors update context w)) = disk w
  /\ one_reply_or_none w (list_authors update context w).
Proof.
  destruct (load_quotes_keeps w) as [D S].
  unfold list_authors, one_reply_or_none, bind, lift, reply_text.
  destruct (load_quotes w) as [[quotes|e|] w1]; cbn [fst snd] in *;
    [|now split|now split].
  destruct (author_names quotes) as [names|e|]; [|now split|now split].
  destruct (sorted_set names) as [authors|e|]; [|now split|now split].
  destruct authors; cbn; rewrite D, S; split; eauto.
Qed.


(** [add_quote] before decoration, by the outcome of the parse. *)
Lemma add_quote_body_run (update : Update) (context : CallbackContext) (w : world) :
  (exists quote author,
     well_formed (text (message update)) quote author
     /\ add_quote_body update context w
        = (quotes <- load_quotes ;;
           save_quotes (quotes ++ [quote_record quote author])%list ;;;
           reply_text QUOTE_ADDED None) w)
  \/ add_quote_body update context w = (Ok tt, replied w (plain INVALID_FORMAT)).
Proof.
  unfold add_quote_body.
  destruct (parse_addquote (text (message update))) as [[quote author]|e|] eqn:P;
    [left | now right | now right].
  exists quote, author. split; [now apply parse_addquote_spec | reflexivity].
Qed.


(** The guard: the wrapped handler runs, or one of the two denials is the
    whole effect. *)
Lemma owner_only_run (OWNER_ID : option Z) (func : handler) (update : Update)
    (context : CallbackContext) (w : world) :
  ((exists u, effective_user update = Some u /\ OWNER_ID = Some (id u))
   /\ owner_only OWNER_ID func update context w = func update context w)
  \/ owner_only OWNER_ID func update context w
     = (Ok tt, replied w (plain OWNER_NOT_CONFIGURED))
  \/ owner_only OWNER_ID func update context w
     = (Ok tt, replied w (plain NOT_AUTHORIZED)).
Proof.
  unfold owner_only. destruct OWNER_ID as [owner|]; [|now right; left].
  destruct (effective_user update) as [u|]; [|now right; right].
  destruct (Z.eqb_spec (id u) owner) as [<- | _]; [left | now right; right].
  split; [now exists u | reflexivity].
Qed.

(** X1.  Of the commands [main] registers, only addquote can change the
    backing file, and only when it is sent by the configured owner with a
    well-formed payload: after every other run, whether it ends well or
    with an exception, the file is what it was. *)
Theorem only_owner_writes (OWNER_ID : option Z) (lower_unicode : string -> string)
    (rnd : nat) (name : string) (h : handler) (update : Update)
    (context : CallbackContext) (w : world) :
  In (name, h) (commands OWNER_ID lower_unicode rnd) ->
  disk (snd (h update context w)) <> disk w ->
  name = "addquote"
  /\ (exists u, effective_user update = Some u /\ OWNER_ID = Some (id u))
  /\ exists quote author, well_formed (text (message update)) quote author.
Proof.
  intros [E | [E | [E | [E | [E | []]]]]]; injection E as <- <-; intros N.
  - now elim N.
  - now elim N.
  - elim N. apply quote_cmd_run.
  - elim N. apply list_authors_run.
  - split; [reflexivity|]. unfold add_quote in N.
    destruct (owner_only_run OWNER_ID add_quote_body update context w)
      as [[O E] | [E | E]]; rewrite E in N; [|now elim N|now elim N].
    split; [exact O|].
    destruct (add_quote_body_run update context w) as [(q & a & W & _) | E2];
      [now exists q, a|].
    rewrite E2 in N. now elim N.
Qed.

Lemma only_owner_writes_witness :
  "addquote" = "addquote"
  /\ (exists u, effective_user (from_user 7 "/addquote Hi - Bob") = Some u
                /\ Some 7%Z = Some (id u))
  /\ exists quote author, well_formed (text (message (from_user 7 "/addquote Hi - Bob"))) quote author.
Proof.
  apply (only_owner_writes (Some 7%Z) (fun s => s) 0 "addquote" (add_quote (Some 7%Z))
           (from_user 7 "/addquote Hi - Bob") (with_args []) (holding quotes_sample)).
  - simpl. auto 6.
  - vm_compute. discriminate.
Defined.



(** X3.  Without arguments, on a store of quote records: an empty store
    is answered "No quotes available yet."; otherwise the reply is the
    card of the stored record that is drawn, and every stored record can
    be drawn. *)
Theorem quote_cmd_random (lower_unicode : string -> string) (rnd : nat)
    (update : Update) (context : CallbackContext) (w w1 : world)
    (quotes : list value) :
  args context = [] ->
  load_quotes w = (Ok quotes, w1) ->
  Forall is_quote quotes ->
  (quotes = [] ->
   quote_cmd lower_unicode rnd update context w
   = (Ok tt, replied w1 (plain "No quotes available yet.")))
  /\ (quotes <> [] ->
      exists v t a,
        In v quotes /\ quote_fields v = Some (t, a)
        /\ quote_cmd lower_unicode rnd update context w
           = (Ok tt, replied w1 (markdown (quote_card t a))))
  /\ (forall v t a,
        In v quotes -> quote_fields v = Some (t, a) ->
        exists draw,
          quote_cmd lower_unicode draw update context w
          = (Ok tt, replied w1 (markdown (quote_card t a)))).
Proof.
  intros Ea L A.
  assert (forall draw, quotes <> [] ->
            quote_cmd lower_unicode draw update context w
            = (chosen <- lift (random_choice draw quotes) ;;
               msg <- lift (render_quote chosen) ;;
               reply_text msg (Some MARKDOWN)) w1) as Run.
  { intros draw Nq. unfold quote_cmd. unfold bind at 1. rewrite L, Ea.
    destruct quotes; [congruence | reflexivity]. }
  split; [|split].
  - intros ->. unfold quote_cmd. unfold bind at 1. now rewrite L.
  - intros Nq. destruct (random_choice_In rnd quotes Nq) as (v & R & I).
    rewrite Forall_forall in A. destruct (A v I) as (t & a & Q).
    exists v, t, a. split; [exact I|]. split; [exact Q|].
    rewrite (Run rnd Nq). unfold bind, lift.
    rewrite R, (render_quote_fields v t a Q). reflexivity.
  - intros v t a I Q. destruct (random_choice_any v quotes I) as (draw & R).
    exists draw.
    assert (quotes <> []) as Nq by (intros E; rewrite E in I; destruct I).
    rewrite (Run draw Nq). unfold bind, lift.
    rewrite R, (render_quote_fields v t a Q). reflexivity.
Qed.

(** A store of one record: whatever is drawn, its card is the reply. *)
Lemma quote_cmd_random_witness :
  quote_cmd (fun s => s) 3 (from_user 1 "/quote") (with_args [])
    (holding [quote_record "A" "X"])
  = (Ok tt, replied (holding [quote_record "A" "X"]) (markdown (quote_card "A" "X"))).
Proof.
  destruct (quote_cmd_random (fun s => s) 3 (from_user 1 "/quote") (with_args [])
              (holding [quote_record "A" "X"]) (holding [quote_record "A" "X"])
              [quote_record "A" "X"])
    as (_ & Draw & _).
  - reflexivity.
  - reflexivity.
  - repeat constructor; eexists; eexists; reflexivity.
  - destruct (Draw ltac:(discriminate)) as (v & t & a & I & Q & R).
    destruct I as [<- | []]. injection Q as <- <-. exact R.
Defined.

Lemma reply_last (l : list reply) (x y : string) :
  (l ++ [plain x])%list = (l ++ [plain y])%list -> x = y.
Proof. intros E. apply app_inv_head in E. now injection E. Qed.

(** A run of [add_quote] that ends with the success confirmation went all
    the way: owner, parse, load, save. *)
Lemma add_quote_confirmed (OWNER_ID : option Z) (update : Update)
    (context : CallbackContext) (w w' : world) :
  add_quote OWNER_ID update context w = (Ok tt, w') ->
  sent w' = (sent w ++ [plain "✅ Quote added successfully."])%list ->
  (exists u, effective_user update = Some u /\ OWNER_ID = Some (id u))
  /\ exists prior quote author w1 w2,
       well_formed (text (message update)) quote author
       /\ load_quotes w = (Ok prior, w1)
       /\ save_quotes (prior ++ [quote_record quote author])%list w1 = (Ok tt, w2)
       /\ w' = replied w2 (plain "✅ Quote added successfully.").
Proof.
  intros R S. unfold add_quote in R.
  destruct (owner_only_run OWNER_ID add_quote_body update context w)
    as [[O E] | [E | E]]; rewrite E in R.
  2, 3: injection R as <-; apply reply_last in S; discriminate S.
  split; [exact O|].
  destruct (add_quote_body_run update context w) as [(q & a & W & E2) | E2];
    rewrite E2 in R.
  2: injection R as <-; apply reply_last in S; discriminate S.
  unfold bind in R.
  destruct (load_quotes w) as [[prior|e|] w1] eqn:L; try discriminate R.
  destruct (save_quotes (prior ++ [quote_record q a])%list w1) as [[[]|e|] w2] eqn:Sv;
    try discriminate R.
  exists prior, q, a, w1, w2. split; [exact W|]. split; [reflexivity|].
  split; [exact Sv|]. unfold reply_text in R. now injection R as <-.
Qed.

(** After a load and a save of the loaded store with one more record, the
    file reads as that longer store. *)
Lemma load_after_save (w w1 w2 : world) (prior : list value) (v : value) (r : reply) :
  load_quotes w = (Ok prior, w1) -> keys_distinct v = true ->
  save_quotes (prior ++ [v])%list w1 = (Ok tt, w2) ->
  load_quotes (replied w2 r) = (Ok (prior ++ [v])%list, replied w2 r).
Proof.
  intros L K Sv. destruct (save_quotes_done _ _ _ Sv) as [F E].
  assert (dumpable (VList (prior ++ [v])%list) = true) as Tx.
  { apply dumpable_spec. split; [exact F|].
    apply load_quotes_keys_distinct in L. simpl in L |- *.
    rewrite forallb_app, L. simpl. now rewrite K. }
  rewrite E. now apply load_quotes_of_dumps.
Qed.



(** The card of a record that was stored can be the reply to a lookup by
    its author. *)
Lemma quote_cmd_finds (lower_unicode : string -> string) (update : Update)
    (context : CallbackContext) (w w1 : world) (quotes : list value)
    (query : string) (v : value) (t a : string) :
  args context <> [] ->
  trimmed (join " " (args context)) query ->
  load_quotes w = (Ok quotes, w1) ->
  Forall is_quote quotes ->
  In v quotes -> quote_fields v = Some (t, a) ->
  ci_match lower_unicode query a ->
  exists draw,
    quote_cmd lower_unicode draw update context w
    = (Ok tt, replied w1 (markdown (quote_card t a))).
Proof.
  intros Na Tq L A I Q C. apply trimmed_strip in Tq.
  pose proof (find_by_author_filter lower_unicode query quotes A) as F.
  set (candidates := filter _ quotes) in F.
  assert (In v candidates) as Ic.
  { unfold candidates. apply filter_In. split; [exact I|].
    rewrite Q. now apply ci_match_contains. }
  destruct (random_choice_any v candidates Ic) as (draw & R).
  exists draw.
  assert (quotes <> []) as Nq by (intros E; rewrite E in I; destruct I).
  rewrite Tq in F.
  rewrite (quote_cmd_search lower_unicode draw update context w w1 quotes candidates
             Na Nq L F).
  destruct candidates as [|c0 cs]; [destruct Ic|].
  unfold bind, lift. rewrite R, (render_quote_fields v t a Q). reflexivity.
Qed.

Lemma ci_match_refl (lower_unicode : string -> string) (a : string) :
  ci_match lower_unicode a a.
Proof. exists EmptyString, EmptyString. simpl. now rewrite append_nil_r. Qed.

(** X5.  A quote that was added can be looked up: after an addquote that
    ended with the success confirmation, on a store of quote records, a
    lookup whose query matches the new author, the author itself for one,
    has a draw that answers with the new quote. *)
Theorem added_quote_is_found (lower_unicode : string -> string)
    (OWNER_ID : option Z) (update : Update) (context : CallbackContext)
    (w w' : world) (prior : list value) (update' : Update)
    (context' : CallbackContext) :
  add_quote OWNER_ID update context w = (Ok tt, w') ->
  sent w' = (sent w ++ [plain "✅ Quote added successfully."])%list ->
  fst (load_quotes w) = Ok prior -> Forall is_quote prior ->
  args context' <> [] ->
  exists quote author,
    well_formed (text (message update)) quote author
    /\ trimmed author author
    /\ ci_match lower_unicode author author
    /\ forall query,
         trimmed (join " " (args context')) query ->
         ci_match lower_unicode query author ->
         exists draw,
           quote_cmd lower_unicode draw update' context' w'
           = (Ok tt, replied w' (markdown (quote_card quote author))).
Proof.
  intros R S L A Na.
  destruct (add_quote_confirmed OWNER_ID update context w w' R S)
    as (_ & prior' & quote & author & w1 & w2 & W & L1 & Sv & ->).
  assert (prior' = prior) as -> by (rewrite L1 in L; now injection L).
  pose proof (load_after_save w w1 w2 prior (quote_record quote author)
                (plain "✅ Quote added successfully.") L1 eq_refl Sv) as L2.
  exists quote, author. split; [exact W|].
  assert (trimmed author author) as Ta.
  { destruct W as (p & before & after & _ & _ & _ & (l & r & _ & _ & _ & Nl & Nr) & _).
    exists EmptyString, EmptyString. rewrite append_nil_r.
    repeat split; try constructor; assumption. }
  split; [exact Ta|]. split; [apply ci_match_refl|].
  intros query Tq C.
  apply (quote_cmd_finds lower_unicode update' context' _ _
           (prior ++ [quote_record quote author])%list query
           (quote_record quote author) quote author); try assumption.
  - apply Forall_app. split; [exact A|]. repeat constructor. now exists quote, author.
  - apply in_or_app. right. now left.
  - reflexivity.
Qed.

(** An addquote by the owner, then a lookup in small letters by someone
    else. *)
Lemma added_quote_is_found_witness :
  exists draw,
    quote_cmd (fun s => s) draw (from_user 8 "/quote bob") (with_args ["bob"])
      (replied (holding (quotes_sample ++ [quote_record "Hi" "Bob"])%list)
         (plain "✅ Quote added successfully."))
    = (Ok tt,
       replied
         (replied (holding (quotes_sample ++ [quote_record "Hi" "Bob"])%list)
            (plain "✅ Quote added successfully."))
         (markdown (quote_card "Hi" "Bob"))).
Proof.
  destruct (added_quote_is_found (fun s => s) (Some 7%Z)
              (from_user 7 "/addquote Hi - Bob") (with_args []) (holding quotes_sample)
              (replied (holding (quotes_sample ++ [quote_record "Hi" "Bob"])%list)
                 (plain "✅ Quote added successfully."))
              quotes_sample (from_user 8 "/quote bob") (with_args ["bob"]))
    as (quote & author & W & _ & _ & Find).
  - reflexivity.
  - reflexivity.
  - reflexivity.
  - repeat constructor; eexists; eexists; reflexivity.
  - discriminate.
  - apply parse_addquote_spec in W. injection W as <- <-.
    apply (Find "bob").
    + apply strip_spec. reflexivity.
    + apply ci_match_contains. reflexivity.
Defined.
